(** * Sia: read queries of the consensus state and the renter's contractor

    A shallow embedding of two Go packages of the Sia repository:
    - package [consensus]: the read-only queries of [State]
      (blockAtHeight, BlockRange, BlocksSince, sortedUscoSet, ...);
    - package [contractor]: [resolveID] and [newContractor].

    Go values are embedded as follows.
    - [crypto.Hash] ([32]byte) and the identifiers defined from it are the
      number the 32 bytes spell in big-endian order, an [N]; comparing two
      hashes byte-wise is comparing these numbers.
    - [BlockHeight] (uint64) is an [N]; every place where the source does
      arithmetic on it writes the wrap-around modulo 2^64 out.
    - a Go map is a [gmap]; a slice is the list of its elements (its
      capacity is taken to be its length).
    - a run-time panic is the outcome [Panics]; a Go [error] result is an
      [option error], [None] being [nil].
    - a method of [State] that takes the lock is a function from the state
      it runs on to its outcome and the state it leaves, written step by
      step; the methods without a lock, which it calls, are functions of
      the state.
    - [*blockNode] is a value of the inductive type [blockNode]; the nil
      pointer is [None]. *)

From Stdlib Require Import ZArith NArith Lia List String.
From Stdlib.Strings Require Import Byte.
From Stdlib Require Import Qcanon.
From stdpp Require Import base tactics option list gmap strings sorting numbers.

Local Open Scope N_scope.

(** ** The Go run time *)

(** The outcome of running a Go function body. *)
Inductive result (A : Type) : Type :=
| Returns (a : A)
| Panics (why : string).
Arguments Returns {A} a.
Arguments Panics {A} why.

#[global] Instance result_ret : MRet result := λ A a, Returns a.
#[global] Instance result_bind : MBind result := λ A B k r,
  match r with
  | Returns a => k a
  | Panics why => Panics why
  end.

(** [l[i]]: indexing a slice panics out of range. *)
Definition index {A : Type} (l : list A) (i : N) : result A :=
  match l !! N.to_nat i with
  | Some x => Returns x
  | None => Panics "index out of range"
  end.

(** [l[lo:hi]]: panics unless lo <= hi <= len(l). *)
Definition slice {A : Type} (l : list A) (lo hi : N) : result (list A) :=
  if decide (lo ≤ hi ∧ hi ≤ N.of_nat (length l))
  then Returns (take (N.to_nat (hi - lo)) (drop (N.to_nat lo) l))
  else Panics "slice bounds out of range".

(** [make([]T, n)]: [n] zero values; panics when [n] is no Go [int]. *)
Definition make {A : Type} (zero : A) (n : N) : result (list A) :=
  if decide (n < 2 ^ 63) then Returns (replicate (N.to_nat n) zero)
  else Panics "makeslice: len out of range".

(** [p.f] for a pointer [p]: panics on nil. *)
Definition deref {A : Type} (p : option A) : result A :=
  match p with
  | Some x => Returns x
  | None => Panics "nil pointer dereference"
  end.

(** uint64 arithmetic. *)
Definition two64 : N := 2 ^ 64.
Definition add64 (a b : N) : N := (a + b) mod two64.
Definition sub64 (a b : N) : N := Z.to_N ((Z.of_N a - Z.of_N b) mod Z.of_N two64).

(** Go's [error]: the sentinel [modules.ErrInvalidConsensusChangeID], which
    the contractor compares against with [==], or any other error, given by
    its message. *)
Inductive error : Type :=
| ErrInvalidConsensusChangeID
| errorString (msg : string).

Definition errors_New (msg : string) : error := errorString msg.

(** [crypto.Hash] and the identifier types defined from it. *)
Abbreviation Hash := N (only parsing).
Abbreviation BlockID := N (only parsing).
Abbreviation SiacoinOutputID := N (only parsing).
Abbreviation SiafundOutputID := N (only parsing).
Abbreviation FileContractID := N (only parsing).
Abbreviation BlockHeight := N (only parsing).
Abbreviation Target := N (only parsing).

(** ** Package consensus *)

(** What the package takes from files that are not part of this
    development: the types of package [types] with their zero values, the
    block identifier, the identifiers a transaction refers to (the outputs
    its inputs spend and the contracts it acts on), the encoder, two
    constants and the instrumented reader/writer lock of [State]. *)
Class Types : Type := {
  Block : Type;
  Block_zero : Block;
  ID : Block → BlockID;
  SiacoinOutput : Type;
  SiacoinOutput_zero : SiacoinOutput;
  SiafundOutput : Type;
  SiafundOutput_zero : SiafundOutput;
  FileContract : Type;
  FileContract_zero : FileContract;
  SiacoinOutputDiff : Type;
  Transaction : Type;
  SiacoinInputs : Transaction → list SiacoinOutputID;
  SiafundInputs : Transaction → list SiafundOutputID;
  contractReferences : Transaction → list FileContractID;
  Marshal : Transaction → list byte;
  BlockSizeLimit : Z;
  DEBUG : bool;
  RWMutex : Type;
  RLock : string → RWMutex → nat * RWMutex;
  RUnlock : string → nat → RWMutex → RWMutex;
}.

(** A [blockNode], with the fields that the queries read. [node_height] is
    the field [height]; [height] names the method of [State]. *)
#[warnings="-register-all"]
Inductive blockNode `{Types} : Type := mkBlockNode {
  block : Block;
  parent : option blockNode;
  node_height : BlockHeight;
  target : Target;
  diffsGenerated : bool;
  siacoinOutputDiffs : list SiacoinOutputDiff;
}.
Arguments mkBlockNode {_}.

(** The [State], with the fields that the queries read: the lock, the
    block tree, the current path and the ledger maps. The values of
    [blockMap] are pointers to nodes, none of them nil. *)
Record State `{Types} : Type := mkState {
  mu : RWMutex;
  blockMap : gmap BlockID blockNode;
  currentPath : list BlockID;
  siacoinOutputs : gmap SiacoinOutputID SiacoinOutput;
  siafundOutputs : gmap SiafundOutputID SiafundOutput;
  fileContracts : gmap FileContractID FileContract;
}.

(** The checks of a transaction that are methods of [State] or of
    [Transaction] defined in files that are not part of this development. *)
Class Validation `{Types} : Type := {
  FollowsStorageProofRules : Transaction → option error;
  validFileContracts : State → Transaction → option error;
  validStorageProofs : State → Transaction → option error;
  validSignatures : State → Transaction → option error;
}.

Section consensus.
Context `{Types}.

(** [v, ok := m[k]]: the zero value and [false] when the key is absent. *)
Definition mapGet {V : Type} (zero : V) (m : gmap N V) (k : N) : V * bool :=
  match m !! k with
  | Some v => (v, true)
  | None => (zero, false)
  end.

(** [for k := range m]: the keys of [m] in the order the run time picks;
    [rangeKeys] is one such order, and the functions that range over a map
    take the order as an argument. *)
Definition rangeKeys {V : Type} (m : gmap N V) : list N := (map_to_list m).*1.

(** [sort.Sort] on a [crypto.HashSlice], whose [Less] compares the bytes of
    two hashes: the slice in ascending numerical order. *)
Definition sort_Sort (l : list Hash) : list Hash := merge_sort N.le l.

(** The state with another lock. *)
Definition set_mu (s : State) (m : RWMutex) : State :=
  {| mu := m; blockMap := blockMap s; currentPath := currentPath s;
     siacoinOutputs := siacoinOutputs s; siafundOutputs := siafundOutputs s;
     fileContracts := fileContracts s |}.

(** A method that works on the [State] behind its receiver: run on a
    state it leaves a state, and returns or panics. A panic keeps the
    state it happened in, on which the deferred calls then run. *)
Definition Method (A : Type) : Type := State → result A * State.

#[global] Instance Method_ret : MRet Method := λ A a s, (Returns a, s).
#[global] Instance Method_bind : MBind Method := λ A B k m s,
  match m s with
  | (Returns a, s1) => k a s1
  | (Panics why, s1) => (Panics why, s1)
  end.

(** Reading through the receiver: a field, or what a method that takes no
    lock computes from the fields. *)
Definition read {A : Type} (field : State → A) : Method A :=
  λ s, (Returns (field s), s).

Definition call {A : Type} (method : State → result A) : Method A :=
  λ s, (method s, s).

(** A step on local values only, which may panic. *)
Definition run {A : Type} (r : result A) : Method A := λ s, (r, s).

(** [s.mu.RLock(name)] and [s.mu.RUnlock(name, counter)]. *)
Definition mu_RLock (name : string) : Method nat :=
  λ s, let '(counter, m) := RLock name (mu s) in (Returns counter, set_mu s m).

Definition mu_RUnlock (name : string) (counter : nat) : Method unit :=
  λ s, (Returns (), set_mu s (RUnlock name counter (mu s))).

(** [defer deferred; body]: the deferred call runs on the state that the
    body leaves, whether the body returns or panics; it does not change
    what the function returns unless it panics itself. *)
Definition defer {A : Type} (deferred : Method unit) (body : Method A)
    : Method A :=
  λ s, let '(r, s1) := body s in
       match deferred s1 with
       | (Returns _, s2) => (r, s2)
       | (Panics why, s2) => (Panics why, s2)
       end.

(** [height] returns the current height of the state. *)
Definition height (s : State) : BlockHeight :=
  Z.to_N ((Z.of_nat (length (currentPath s)) - 1) mod Z.of_N two64).

(** [blockAtHeight] returns the block on the current path with the given
    height. *)
Definition blockAtHeight (s : State) (h : BlockHeight) : result (Block * bool) :=
  let exists_ := bool_decide (h ≤ height s) in
  if exists_ then
    id ← index (currentPath s) h;
    node ← deref (blockMap s !! id);
    mret (block node, exists_)
  else mret (Block_zero, exists_).

(** [currentBlockID] returns the ID of the current block. *)
Definition currentBlockID (s : State) : result BlockID :=
  index (currentPath s) (height s).

(** [currentBlockNode] returns the blockNode of the current block, a
    pointer that is nil when the block map has no such key. *)
Definition currentBlockNode (s : State) : result (option blockNode) :=
  id ← currentBlockID s;
  mret (blockMap s !! id).

(** [output] returns the unspent SiacoinOutput associated with the given
    ID. *)
Definition output (s : State) (id : SiacoinOutputID) : SiacoinOutput * bool :=
  mapGet SiacoinOutput_zero (siacoinOutputs s) id.

(** [sortedUscoSet], for the order [keys] in which [range] yields the keys
    of [siacoinOutputs]. The slice of hashes is made with the length of the
    map and the keys are appended to it. *)
Definition sortedUscoSet_ranging (keys : list SiacoinOutputID) (s : State)
    : list SiacoinOutput :=
  let unspentOutputs : list Hash := replicate (size (siacoinOutputs s)) 0 in
  let unspentOutputs :=
    foldl (λ acc outputID, acc ++ [outputID]) unspentOutputs keys in
  let unspentOutputs := sort_Sort unspentOutputs in
  let sortedOutputs := replicate (length unspentOutputs) SiacoinOutput_zero in
  foldl (λ acc '(i, outputID), <[i := (output s outputID).1]> acc)
    sortedOutputs (imap pair unspentOutputs).

Definition sortedUscoSet (s : State) : list SiacoinOutput :=
  sortedUscoSet_ranging (rangeKeys (siacoinOutputs s)) s.

(** [sortedUsfoSet], likewise; with [DEBUG] set it panics on an identifier
    that has no output. *)
Definition sortedUsfoSet_ranging (keys : list SiafundOutputID) (s : State)
    : result (list SiafundOutput) :=
  let outputIDs : list Hash := replicate (size (siafundOutputs s)) 0 in
  let outputIDs := foldl (λ acc outputID, acc ++ [outputID]) outputIDs keys in
  let outputIDs := sort_Sort outputIDs in
  let sortedOutputs := replicate (length outputIDs) SiafundOutput_zero in
  foldl (λ acc '(i, outputID),
      sortedOutputs ← acc;
      let '(output, exists_) :=
        mapGet SiafundOutput_zero (siafundOutputs s) outputID in
      if DEBUG && negb exists_ then Panics "output doesn't exist"
      else mret (<[i := output]> sortedOutputs))
    (mret sortedOutputs) (imap pair outputIDs).

Definition sortedUsfoSet (s : State) : result (list SiafundOutput) :=
  sortedUsfoSet_ranging (rangeKeys (siafundOutputs s)) s.

(** [BlockAtHeight] returns the block on the current path with the given
    height. *)
Definition BlockAtHeight (h : BlockHeight) : Method (Block * bool) :=
  counter ← mu_RLock "state BlockAtHeight";
  defer (mu_RUnlock "state BlockAtHeight" counter)
    (call (λ s, blockAtHeight s h)).

(** [Block] returns the block associated with the given id. (A method
    that shares its name with a type carries an underscore here.) *)
Definition Block_ (id : BlockID) : Method (Block * bool) :=
  counter ← mu_RLock "state Block";
  defer (mu_RUnlock "state Block" counter)
    (nodes ← read blockMap;
     match nodes !! id with
     | None => mret (Block_zero, false)
     | Some node => mret (block node, true)
     end).

(** The loop of [BlockRange]: [blocks[i] = node.block] for the [i]-th
    identifier of the range. *)
Fixpoint BlockRange_loop (ids : list BlockID) (i : nat)
    (blocks : list Block) : Method (list Block * option error) :=
  match ids with
  | [] => mret (blocks, None)
  | id :: ids =>
    nodes ← read blockMap;
    match nodes !! id with
    | None =>
      if DEBUG
      then run (Panics
             "blockMap is missing a block whose ID is in the currentPath")
      else mret ([], Some (errors_New "State is inconsistent"))
    | Some node =>
      if decide (i < length blocks)%nat
      then BlockRange_loop ids (S i) (<[i := block node]> blocks)
      else run (Panics "index out of range")
    end
  end.

(** [BlockRange] returns a slice of the blocks that fall within the given
    range [start, stop]. *)
Definition BlockRange (start stop : BlockHeight)
    : Method (list Block * option error) :=
  counter ← mu_RLock "state BlockRange";
  defer (mu_RUnlock "state BlockRange" counter)
    (h ← read height;
     if bool_decide (stop < start) || bool_decide (h < stop)
     then mret ([], Some (errors_New "invalid range"))
     else
       blocks ← run (make Block_zero (add64 (sub64 stop start) 1));
       path ← read currentPath;
       ids ← run (slice path start (add64 stop 1));
       BlockRange_loop ids 0 blocks).

(** [BlockOutputDiffs] returns the SiacoinOutputDiffs for a given block. *)
Definition BlockOutputDiffs (id : BlockID)
    : Method (list SiacoinOutputDiff * option error) :=
  counter ← mu_RLock "state BlockOutputDiffs";
  defer (mu_RUnlock "state BlockOutputDiffs" counter)
    (nodes ← read blockMap;
     match nodes !! id with
     | None => mret ([], Some (errors_New "requested an unknown block"))
     | Some node =>
       if negb (diffsGenerated node)
       then mret ([], Some (errors_New
              "diffs have not been generated for the requested block"))
       else mret (siacoinOutputDiffs node, None)
     end).

(** Modelled from the spec: the test of [backtrackToCurrentPath] for a
    node of the current path, one whose block is the block of the path at
    the node's height. *)
Definition onCurrentPath (s : State) (bn : blockNode) : bool :=
  bool_decide (currentPath s !! N.to_nat (node_height bn) = Some (ID (block bn))).

(** Modelled from the spec: [backtrackToCurrentPath], which [BlocksSince]
    calls and whose code is in a file that is not part of this development.
    It walks parent links from the node until it finds a node of the
    current path, the common ancestor, and returns the nodes it met, the
    ancestor first and the given node last. A walk that runs off the root
    finds no common ancestor and does not return. *)
Fixpoint backtrack_loop (s : State) (bn : blockNode) (path : list blockNode)
    : result (list blockNode) :=
  if onCurrentPath s bn then mret path
  else
    match parent bn with
    | None => Panics "nil pointer dereference"
    | Some p => backtrack_loop s p (p :: path)
    end.

(** Modelled from the spec: [backtrackToCurrentPath], the walk entered
    with the node alone. *)
Definition backtrackToCurrentPath (s : State) (bn : blockNode)
    : result (list blockNode) :=
  backtrack_loop s bn [bn].

(** The first loop of [BlocksSince]:
    [for i := len(path) - 1; i > 0; i--], entered with [i]. *)
Fixpoint BlocksSince_loop (path : list blockNode) (i : nat)
    (removedBlocks : list BlockID) : result (list BlockID) :=
  match i with
  | O => mret removedBlocks
  | S i' =>
    bn ← index path (N.of_nat i);
    BlocksSince_loop path i' (removedBlocks ++ [ID (block bn)])
  end.

(** [BlocksSince] returns the blocks removed and added since block [id]. *)
Definition BlocksSince (id : BlockID)
    : Method (list BlockID * list BlockID * option error) :=
  counter ← mu_RLock "state BlocksSince";
  defer (mu_RUnlock "state BlocksSince" counter)
    (nodes ← read blockMap;
     match nodes !! id with
     | None => mret ([], [], Some (errors_New "block is unknown"))
     | Some node =>
       path ← call (λ s, backtrackToCurrentPath s node);
       removedBlocks ← run (BlocksSince_loop path (length path - 1) []);
       ancestor ← run (index path 0);
       current ← read currentPath;
       addedBlocks ← run (slice current (add64 (node_height ancestor) 1)
                            (N.of_nat (length current)));
       mret (removedBlocks, addedBlocks, None)
     end).

(** [FileContract] returns the file contract associated with the id. *)
Definition FileContract_ (id : FileContractID)
    : Method (FileContract * bool) :=
  counter ← mu_RLock "state FileContract";
  defer (mu_RUnlock "state FileContract" counter)
    (contracts ← read fileContracts;
     mret (mapGet FileContract_zero contracts id)).

(** [CurrentBlock] returns the highest block on the tallest fork. *)
Definition CurrentBlock : Method Block :=
  counter ← mu_RLock "state CurrentBlock";
  defer (mu_RUnlock "state CurrentBlock" counter)
    (p ← call currentBlockNode;
     node ← run (deref p);
     mret (block node)).

(** [Height] returns the height of the current blockchain. *)
Definition Height : Method BlockHeight :=
  counter ← mu_RLock "state BlockHeight";
  defer (mu_RUnlock "state BlockHeight" counter) (read height).

(** [HeightOfBlock] returns the height of the block with the given ID. *)
Definition HeightOfBlock (bid : BlockID) : Method (BlockHeight * bool) :=
  counter ← mu_RLock "state HeightOfBlock";
  defer (mu_RUnlock "state HeightOfBlock" counter)
    (nodes ← read blockMap;
     match nodes !! bid with
     | None => mret (0, false)
     | Some bn => mret (node_height bn, true)
     end).

(** [SiacoinOutput] returns the siacoin output associated with the ID. *)
Definition SiacoinOutput_ (id : SiacoinOutputID)
    : Method (SiacoinOutput * bool) :=
  counter ← mu_RLock "state SiacoinOutput";
  defer (mu_RUnlock "state SiacoinOutput" counter)
    (read (λ s, output s id)).

(** [SiafundOutput] returns the siafund output associated with the ID. *)
Definition SiafundOutput_ (id : SiafundOutputID)
    : Method (SiafundOutput * bool) :=
  counter ← mu_RLock "state SiafundOutput";
  defer (mu_RUnlock "state SiafundOutput" counter)
    (outputs ← read siafundOutputs;
     mret (mapGet SiafundOutput_zero outputs id)).

(** [SortedUtxoSet] returns all of the unspent transaction outputs sorted
    according to the numerical value of their id. *)
Definition SortedUtxoSet : Method (list SiacoinOutput) :=
  counter ← mu_RLock "state SortedUtxoSet";
  defer (mu_RUnlock "state SortedUtxoSet" counter) (read sortedUscoSet).

(** Modelled from the spec: [Target.Inverse], defined in a file that is not
    part of this development. The weight of a target is 1/target as an
    exact rational number; a zero target has no inverse and the call does
    not return. *)
Definition Inverse (t : Target) : result Qc :=
  if decide (t = 0) then Panics "division by zero"
  else mret (1 / Qc_of_Z (Z.of_N t))%Qc.

(** [currentBlockWeight] returns the weight of the current block. *)
Definition currentBlockWeight (s : State) : result Qc :=
  p ← currentBlockNode s;
  node ← deref p;
  Inverse (target node).

Context `{!Validation}.

(** [ValidTransactionComponents] checks that a transaction follows basic
    rules; it does not check that inputs, storage proofs and terminations
    act on existing outputs and contracts. *)
Definition ValidTransactionComponents (t : Transaction)
    : Method (option error) :=
  counter ← mu_RLock "state ValidTransactionComponents";
  defer (mu_RUnlock "state ValidTransactionComponents" counter)
    (if bool_decide (BlockSizeLimit - 5000 < Z.of_nat (length (Marshal t)))%Z
     then mret (Some (errors_New "transaction is too large"))
     else
       match FollowsStorageProofRules t with
       | Some err => mret (Some err)
       | None =>
         failed ← read (λ s, validFileContracts s t);
         match failed with
         | Some err => mret (Some err)
         | None =>
           failed ← read (λ s, validStorageProofs s t);
           match failed with
           | Some err => mret (Some err)
           | None => read (λ s, validSignatures s t)
           end
         end
       end).

(** Modelled from the spec: [validTransaction], defined in a file that is
    not part of this development. It makes the checks of
    [validTransactionComponents] and additionally requires that every input
    refers to an output that exists and is unspent in the ledger, that
    every contract reference exists, and that no two inputs of the
    transaction spend the same output. *)
Definition validTransaction (s : State) (t : Transaction) : option error :=
  if bool_decide (BlockSizeLimit - 5000 < Z.of_nat (length (Marshal t)))%Z
  then Some (errors_New "transaction is too large")
  else
    match FollowsStorageProofRules t with
    | Some err => Some err
    | None =>
      match validFileContracts s t with
      | Some err => Some err
      | None =>
        match validStorageProofs s t with
        | Some err => Some err
        | None =>
          match validSignatures s t with
          | Some err => Some err
          | None =>
            if negb (forallb (λ id, bool_decide (is_Some (siacoinOutputs s !! id)))
                       (SiacoinInputs t))
               || negb (forallb (λ id, bool_decide (is_Some (siafundOutputs s !! id)))
                          (SiafundInputs t))
            then Some (errors_New "transaction spends a nonexisting output")
            else if negb (forallb (λ id, bool_decide (is_Some (fileContracts s !! id)))
                            (contractReferences t))
            then Some (errors_New "transaction refers to a nonexisting contract")
            else if negb (bool_decide (NoDup (SiacoinInputs t)))
                    || negb (bool_decide (NoDup (SiafundInputs t)))
            then Some (errors_New "output spent twice in the same transaction")
            else None
          end
        end
      end
    end.

(** [ValidTransaction] checks that a transaction is valid within the
    context of the current consensus set. *)
Definition ValidTransaction (t : Transaction) : Method (option error) :=
  counter ← mu_RLock "state ValidTransaction";
  defer (mu_RUnlock "state ValidTransaction" counter)
    (read (λ s, validTransaction s t)).

End consensus.

(** ** Package contractor *)

Abbreviation ConsensusChangeID := N (only parsing).

(** A [Contractor]; of its fields, the ones the functions below read or
    write: the consensus checkpoint and the table of renewals. *)
Record Contractor : Type := mkContractor {
  blockHeight : BlockHeight;
  currentPeriod : BlockHeight;
  lastChange : ConsensusChangeID;
  renewedIDs : gmap FileContractID FileContractID;
}.

(** The interface [consensusSet], of which [newContractor] calls
    [ConsensusSetSubscribe]: the call may run the subscriber's callback,
    which updates the contractor, and changes the consensus set. *)
Class consensusSet (CS : Type) : Type := {
  ConsensusSetSubscribe :
    CS → Contractor → ConsensusChangeID → option error * Contractor * CS;
}.

(** What [newContractor] takes from files that are not part of this
    development: the sentinel [modules.ConsensusChangeBeginning], the
    contractor's [load] and [save], [os.IsNotExist] and the text of the
    sentinel error. *)
Class Persistence : Type := {
  ConsensusChangeBeginning : ConsensusChangeID;
  load : Contractor → option error * Contractor;
  save : Contractor → option error;
  os_IsNotExist : error → bool;
  ErrInvalidConsensusChangeID_text : string;
}.

(** What [newContractor] returns, with the consensus set as the calls left
    it and the subscriptions it made, in order: the contractor as it was
    passed and the identifier to start from. *)
Record newContractorResult (CS : Type) : Type := mkResult {
  contractor : option Contractor;
  err : option error;
  consensus : CS;
  subscriptions : list (Contractor * ConsensusChangeID);
}.
Arguments mkResult {CS}.
Arguments contractor {CS}.
Arguments err {CS}.
Arguments consensus {CS}.
Arguments subscriptions {CS}.

Section contractor.
Context {CS : Type} `{!consensusSet CS} `{!Persistence}.

(** [err.Error()]. *)
Definition Error (e : error) : string :=
  match e with
  | ErrInvalidConsensusChangeID => ErrInvalidConsensusChangeID_text
  | errorString msg => msg
  end.

(** [resolveID] returns the ID of the most recent renewal of id. The loop
    runs as long as the identifier has an entry; [fuel] bounds the number
    of iterations and [None] says that it ran out. *)
Fixpoint resolveID (fuel : nat) (c : Contractor) (id : FileContractID)
    : option FileContractID :=
  match renewedIDs c !! id with
  | None => Some id
  | Some newID =>
    match fuel with
    | O => None
    | S fuel => resolveID fuel c newID
    end
  end.

(** [ResolveID] is [resolveID] under the contractor's read lock. *)
Definition ResolveID (fuel : nat) (c : Contractor) (id : FileContractID)
    : option FileContractID :=
  resolveID fuel c id.

(** [newContractor] creates a Contractor using the provided dependencies:
    it loads the persisted fields, subscribes to the consensus set and
    saves. The stop hooks it registers with the thread group, the stop
    channel it passes on and the contractor's own lock around [save] have
    no part in what it returns and are left out. *)
Definition newContractor (cs : CS) : newContractorResult CS :=
  let c := {| blockHeight := 0; currentPeriod := 0; lastChange := 0;
              renewedIDs := ∅ |} in
  let '(err, c) := load c in
  if match err with Some e => negb (os_IsNotExist e) | None => false end
  then mkResult None err cs []
  else
    let '(err, c1, cs) := ConsensusSetSubscribe cs c (lastChange c) in
    let calls := [(c, lastChange c)] in
    let '(err, c, cs, calls) :=
      match err with
      | Some ErrInvalidConsensusChangeID =>
        let c := {| blockHeight := 0; currentPeriod := currentPeriod c1;
                    lastChange := ConsensusChangeBeginning;
                    renewedIDs := renewedIDs c1 |} in
        let '(err, c2, cs) := ConsensusSetSubscribe cs c (lastChange c) in
        (err, c2, cs, calls ++ [(c, lastChange c)])
      | _ => (err, c1, cs, calls)
      end in
    match err with
    | Some e =>
      mkResult None
        (Some (errors_New ("contractor subscription failed: " ++ Error e)))
        cs calls
    | None =>
      match save c with
      | Some e => mkResult None (Some e) cs calls
      | None => mkResult (Some c) None cs calls
      end
    end.

End contractor.

(** ** The invariant of the block tree and the current path *)

Section invariant.
Context `{Types}.

(** The tree's rule for heights: the genesis node, which has no parent, has
    height 0 and every other node is one above its parent. *)
Definition heightRule (n : blockNode) : Prop :=
  match parent n with
  | None => node_height n = 0
  | Some p => node_height n = node_height p + 1
  end.

(** [ids] continues a chain of the tree that ends in [prev]: every
    identifier is the key of a node of the block map, the node of the
    block with that identifier, whose parent is the node before it. *)
Fixpoint chain (s : State) (prev : option blockNode) (ids : list BlockID) : Prop :=
  match ids with
  | [] => True
  | id :: ids =>
    match blockMap s !! id with
    | None => False
    | Some n =>
      ID (block n) = id ∧ parent n = prev ∧ heightRule n ∧ chain s (Some n) ids
    end
  end.

(** A node descends from the current path: it or one of its ancestors is
    on it. *)
Fixpoint rooted (s : State) (bn : blockNode) : bool :=
  onCurrentPath s bn
  || match parent bn with
     | Some p => rooted s p
     | None => false
     end.

(** A consistent state: the current path holds the genesis block at least,
    its length is a Go [int], it is a chain of the tree from the genesis
    node, and every node of the block map descends from it. *)
Record consistent (s : State) : Prop := {
  path_nonempty : currentPath s ≠ [];
  path_fits : N.of_nat (length (currentPath s)) < 2 ^ 63;
  path_chain : chain s None (currentPath s);
  tree_rooted : map_Forall (λ _ bn, rooted s bn = true) (blockMap s);
}.

(** Induction along parent links. *)
Fixpoint blockNode_parent_ind (P : blockNode → Prop)
    (Hroot : ∀ bn, parent bn = None → P bn)
    (Hchild : ∀ bn p, parent bn = Some p → P p → P bn)
    (bn : blockNode) : P bn :=
  match bn with
  | mkBlockNode b par h t d diffs =>
    match par as par0 return P (mkBlockNode b par0 h t d diffs) with
    | None => Hroot (mkBlockNode b None h t d diffs) eq_refl
    | Some p =>
      Hchild (mkBlockNode b (Some p) h t d diffs) p eq_refl
        (blockNode_parent_ind P Hroot Hchild p)
    end
  end.

(** What a query has to leave alone: the block map, the current path and
    the three ledger maps. *)
Definition contents (s : State) :=
  (blockMap s, currentPath s, siacoinOutputs s, siafundOutputs s,
   fileContracts s).

Definition same_contents (s s' : State) : Prop := contents s' = contents s.

(** A method leaves every state it runs on related by [R] to the state it
    started from, whether it returns or panics. *)
Definition leaves {A : Type} (R : relation State) (m : Method A) : Prop :=
  ∀ s, R s (m s).2.

(** The fork of a node: [fork s bn removed ancestor] when walking parent
    links from [bn] meets the current path first at [ancestor], and
    [removed] are the nodes before it, [bn] first. *)
Inductive fork (s : State) : blockNode → list blockNode → blockNode → Prop :=
| fork_on_path bn :
    onCurrentPath s bn = true → fork s bn [] bn
| fork_off_path bn p removed ancestor :
    onCurrentPath s bn = false →
    parent bn = Some p →
    fork s p removed ancestor →
    fork s bn (bn :: removed) ancestor.

End invariant.

(** The chain of renewals that starts at [id] ends: it reaches an
    identifier that was not renewed. *)
Inductive ends (c : Contractor) : FileContractID → Prop :=
| ends_here id : renewedIDs c !! id = None → ends c id
| ends_next id newID :
    renewedIDs c !! id = Some newID → ends c newID → ends c id.

(** ** A block tree after a reorganisation

    The chain a1 .. a5 on the genesis block g was replaced by the heavier
    chain b3 .. b7 that branches off at a2. Blocks are given by their
    identifier, outputs by their value, a transaction by the outputs it
    spends and the size of its encoding. *)

Record demoTransaction : Type := mkDemoTransaction {
  demo_inputs : list SiacoinOutputID;
  demo_size : N;
}.

Definition demoTypes (debug : bool) : Types := {|
  Block := N;
  Block_zero := 0;
  ID := λ b, b;
  SiacoinOutput := N;
  SiacoinOutput_zero := 0;
  SiafundOutput := N;
  SiafundOutput_zero := 0;
  FileContract := N;
  FileContract_zero := 0;
  SiacoinOutputDiff := N;
  Transaction := demoTransaction;
  SiacoinInputs := demo_inputs;
  SiafundInputs := λ _, [];
  contractReferences := λ _, [];
  Marshal := λ t, replicate (N.to_nat (demo_size t)) x00%byte;
  BlockSizeLimit := 1000000;
  DEBUG := debug;
  RWMutex := nat;
  RLock := λ _ readers, (readers, S readers);
  RUnlock := λ _ _ readers, pred readers;
|}.

Section demo.
Context (debug : bool).
Let T : Types := demoTypes debug.

Definition child (id : BlockID) (p : @blockNode T) : @blockNode T :=
  {| block := (id : @Block T); parent := Some p;
     node_height := node_height p + 1; target := 16; diffsGenerated := true;
     siacoinOutputDiffs := [] |}.

Definition g : @blockNode T :=
  {| block := (100 : @Block T); parent := None; node_height := 0;
     target := 16; diffsGenerated := true; siacoinOutputDiffs := [] |}.
Definition a1 := child 101 g.
Definition a2 := child 102 a1.
Definition a3 := child 103 a2.
Definition a4 := child 104 a3.
Definition a5 := child 105 a4.
Definition b3 := child 203 a2.
Definition b4 := child 204 b3.
Definition b5 := child 205 b4.
Definition b6 := child 206 b5.
Definition b7 := child 207 b6.

Definition reorganised : @State T := {|
  mu := (0%nat : @RWMutex T);
  blockMap := list_to_map
    ((λ n : @blockNode T, (ID (block n), n))
       <$> [g; a1; a2; a3; a4; a5; b3; b4; b5; b6; b7]);
  currentPath := [100; 101; 102; 203; 204; 205; 206; 207];
  siacoinOutputs := {[ 5 := (7 : @SiacoinOutput T) ]};
  siafundOutputs := {[ 8 := (3 : @SiafundOutput T) ]};
  fileContracts := ∅;
|}.

End demo.

(** A consensus set that replays from the change identifiers it lists and
    from no other, with a persisted checkpoint 42; and a contractor with
    two renewals. *)
Definition demoConsensusSet : consensusSet (list ConsensusChangeID) := {|
  ConsensusSetSubscribe := λ cs c start,
    if bool_decide (start ∈ cs) then (None, c, cs)
    else (Some ErrInvalidConsensusChangeID, c, cs);
|}.

Definition demoPersistence : Persistence := {|
  ConsensusChangeBeginning := 0;
  load := λ c,
    (None, {| blockHeight := 9; currentPeriod := currentPeriod c;
              lastChange := 42; renewedIDs := renewedIDs c |});
  save := λ _, None;
  os_IsNotExist := λ _, false;
  ErrInvalidConsensusChangeID_text := "consensus subscription has invalid id";
|}.

Definition renewedTwice : Contractor := {|
  blockHeight := 0; currentPeriod := 0; lastChange := 0;
  renewedIDs := {[ 1 := 2; 2 := 3 ]};
|}.

(** A transaction of 995001 bytes, and one of 100 bytes that spends the
    output 6, which the ledger of [reorganised] does not hold. *)
Definition oversized : demoTransaction := mkDemoTransaction [5] 995001.
Definition spendsMissing : demoTransaction := mkDemoTransaction [6] 100.

(** The checks of a transaction pool that has nothing to object to. *)
Definition demoValidation (debug : bool) : @Validation (demoTypes debug) := {|
  FollowsStorageProofRules := λ _, None;
  validFileContracts := λ _ _, None;
  validStorageProofs := λ _ _, None;
  validSignatures := λ _ _, None;
|}.

(** ** Further functions of the two packages *)

Section consensus_further.
Context `{Types}.

(** [CurrentTarget] returns the target of the next block that needs to be
    submitted to the state. *)
Definition CurrentTarget : Method Target :=
  counter ← mu_RLock "state CurrentTarget";
  defer (mu_RUnlock "state CurrentTarget" counter)
    (p ← call currentBlockNode;
     node ← run (deref p);
     mret (target node)).

(** The body of the second loop of [sortedUsfoSet], by name. *)
Definition sortedUsfoSet_fill (s : State)
    (acc : result (list SiafundOutput)) (entry : nat * Hash)
    : result (list SiafundOutput) :=
  let '(i, outputID) := entry in
  sortedOutputs ← acc;
  let '(output, exists_) :=
    mapGet SiafundOutput_zero (siafundOutputs s) outputID in
  if DEBUG && negb exists_ then Panics "output doesn't exist"
  else mret (<[i := output]> sortedOutputs).

End consensus_further.

(** [contractUtility] contains metrics internal to the contractor that
    reflect the utility of a given contract. *)
Record contractUtility : Type := mkContractUtility {
  GoodForUpload : bool;
  GoodForRenew : bool;
}.

(** [GoodForUpload] returns whether the given contract should be uploaded
    to. It reads the contractor's field [contractUtilities], which the
    record [Contractor] leaves out and which is passed beside it here; an
    identifier without an entry reads as the zero [contractUtility]. (The
    method carries an underscore, its name being the field's.) *)
Definition GoodForUpload_ (fuel : nat)
    (contractUtilities : gmap FileContractID contractUtility)
    (c : Contractor) (id : FileContractID) : option bool :=
  r ← resolveID fuel c id;
  Some (GoodForUpload
          (default (mkContractUtility false false) (contractUtilities !! r))).

(** One entry of [renewedIDs]: [newID] is the renewal of [id]. *)
Definition renewal (c : Contractor) (id newID : FileContractID) : Prop :=
  renewedIDs c !! id = Some newID.

(** What [New] takes from the operating system and from packages that are
    not part of this development: making the directory, opening the
    contract set and the logger, each of which changes the file system and
    may fail, and the joining of paths. *)
Class Host (FS : Type) : Type := {
  os_MkdirAll : string → FS → option error * FS;
  proto_NewContractSet : string → FS → option error * FS;
  persist_NewFileLogger : string → FS → option error * FS;
  filepath_Join : string → string → string;
}.

Definition errNilCS : error :=
  errors_New "cannot create contractor with nil consensus set".
Definition errNilTpool : error :=
  errors_New "cannot create contractor with nil transaction pool".
Definition errNilWallet : error :=
  errors_New "cannot create contractor with nil wallet".

(** What [New] returns, with the file system as it left it and, when it
    got as far as [newContractor], what that call returned. *)
Record NewResult (CS FS : Type) : Type := mkNewResult {
  new_contractor : option Contractor;
  new_err : option error;
  new_fs : FS;
  new_call : option (newContractorResult CS);
}.
Arguments mkNewResult {CS FS}.
Arguments new_contractor {CS FS}.
Arguments new_err {CS FS}.
Arguments new_fs {CS FS}.
Arguments new_call {CS FS}.

Section contractor_further.
Context {CS FS W TP HDB : Type}.
Context `{!consensusSet CS} `{!Persistence} `{!Host FS}.

(** [New] returns a new Contractor. The consensus set, the wallet and the
    transaction pool are interface values, [None] being nil; the host
    database is passed on unchecked. *)
Definition New (cs : option CS) (wallet : option W) (tpool : option TP)
    (hdb : option HDB) (persistDir : string) (fs : FS) : NewResult CS FS :=
  match cs, wallet, tpool with
  | None, _, _ => mkNewResult None (Some errNilCS) fs None
  | Some _, None, _ => mkNewResult None (Some errNilWallet) fs None
  | Some _, Some _, None => mkNewResult None (Some errNilTpool) fs None
  | Some cs, Some _, Some _ =>
    let '(failed, fs) := os_MkdirAll persistDir fs in
    match failed with
    | Some e => mkNewResult None (Some e) fs None
    | None =>
      let '(failed, fs) := proto_NewContractSet persistDir fs in
      match failed with
      | Some e => mkNewResult None (Some e) fs None
      | None =>
        let '(failed, fs) :=
          persist_NewFileLogger (filepath_Join persistDir "contractor.log") fs in
        match failed with
        | Some e => mkNewResult None (Some e) fs None
        | None =>
          let r := newContractor cs in
          mkNewResult (contractor r) (err r) fs (Some r)
        end
      end
    end
  end.

End contractor_further.

(** ** Further states for demonstration *)

(** A state without a block, one whose current path names a block that the
    block map does not hold, and the ledger of [reorganised] with the zero
    hash among the siafund outputs. *)
Definition emptyState (debug : bool) : @State (demoTypes debug) := {|
  mu := (0%nat : @RWMutex (demoTypes debug));
  blockMap := ∅; currentPath := [];
  siacoinOutputs := ∅; siafundOutputs := ∅; fileContracts := ∅;
|}.

Definition tornState (debug : bool) : @State (demoTypes debug) := {|
  mu := (0%nat : @RWMutex (demoTypes debug));
  blockMap := {[ 100 := g debug ]};
  currentPath := [100; 101];
  siacoinOutputs := ∅; siafundOutputs := ∅; fileContracts := ∅;
|}.

(** A contractor whose renewals run in a circle. *)
Definition renewedInCircle : Contractor := {|
  blockHeight := 0; currentPeriod := 0; lastChange := 0;
  renewedIDs := {[ 1 := 2; 2 := 1 ]};
|}.

(** The utilities of the contracts of [renewedTwice]: only the latest
    renewal is good for upload. *)
Definition demoUtilities : gmap FileContractID contractUtility :=
  {[ 1 := mkContractUtility false false; 3 := mkContractUtility true true ]}.


(** A file system given by the paths made in it, in order. *)
Definition demoHost : Host (list string) := {|
  os_MkdirAll := λ dir fs, (None, fs ++ [dir]);
  proto_NewContractSet := λ dir fs, (None, fs);
  persist_NewFileLogger := λ path fs, (None, fs ++ [path]);
  filepath_Join := λ dir file, (dir ++ "/" ++ file)%string;
|}.

(** ** Properties of package consensus *)

(** *** Running a method *)

Section method_properties.
Context `{Types}.

Lemma bind_read {A B : Type} (field : State → A) (k : A → Method B)
    (s : State) :
  (x ← read field; k x) s = k (field s) s.
Proof. reflexivity. Qed.

Lemma bind_run {A B : Type} (r : result A) (k : A → Method B) (s : State) :
  (x ← run r; k x) s
  = match r with Returns a => k a s | Panics why => (Panics why, s) end.
Proof. reflexivity. Qed.

Lemma bind_call {A B : Type} (method : State → result A) (k : A → Method B)
    (s : State) :
  (x ← call method; k x) s
  = match method s with
    | Returns a => k a s
    | Panics why => (Panics why, s)
    end.
Proof. reflexivity. Qed.

(** What a method returns that takes the lock and defers its release is
    what its body returns on the locked state. *)
Lemma locked_value {A : Type} (name name' : string) (body : Method A)
    (s : State) :
  ((counter ← mu_RLock name; defer (mu_RUnlock name' counter) body) s).1
  = (body (set_mu s (RLock name (mu s)).2)).1.
Proof.
  unfold mbind, Method_bind, mu_RLock, defer, mu_RUnlock.
  destruct (RLock name (mu s)) as [counter m]. cbn.
  by destruct (body (set_mu s m)).
Qed.

(** What the steps of a method leave, for a relation that holds of a state
    and itself and along two steps. *)
Section leaves.
Context (R : relation State) `{!PreOrder R}.

Lemma leaves_ret {A : Type} (a : A) : leaves R (mret a).
Proof. intros s. reflexivity. Qed.

Lemma leaves_read {A : Type} (field : State → A) : leaves R (read field).
Proof. intros s. reflexivity. Qed.

Lemma leaves_call {A : Type} (method : State → result A) :
  leaves R (call method).
Proof. intros s. reflexivity. Qed.

Lemma leaves_run {A : Type} (r : result A) : leaves R (run r).
Proof. intros s. reflexivity. Qed.

Lemma leaves_bind {A B : Type} (m : Method A) (k : A → Method B) :
  leaves R m → (∀ a, leaves R (k a)) → leaves R (m ≫= k).
Proof.
  intros Hm Hk s. unfold mbind, Method_bind.
  specialize (Hm s). destruct (m s) as [[a|why] s1]; cbn in *; [|done].
  etrans; [done|]. apply Hk.
Qed.

Lemma leaves_defer {A : Type} (deferred : Method unit) (body : Method A) :
  leaves R deferred → leaves R body → leaves R (defer deferred body).
Proof.
  intros Hdeferred Hbody s. unfold defer.
  specialize (Hbody s). destruct (body s) as [r s1]; cbn in *.
  specialize (Hdeferred s1).
  destruct (deferred s1) as [[[]|why] s2]; cbn in *; by etrans.
Qed.

(** The loop of [BlockRange] is made of such steps. *)
Lemma leaves_BlockRange_loop (ids : list BlockID) :
  ∀ (i : nat) (blocks : list Block), leaves R (BlockRange_loop ids i blocks).
Proof.
  induction ids as [|id ids IH]; intros i blocks; cbn [BlockRange_loop].
  - apply leaves_ret.
  - apply leaves_bind; [apply leaves_read|]. intros nodes.
    destruct (nodes !! id) as [node|].
    + destruct (decide _); [apply IH|apply leaves_run].
    + destruct DEBUG; [apply leaves_run|apply leaves_ret].
Qed.

End leaves.

#[global] Instance same_contents_preorder : PreOrder same_contents.
Proof.
  split.
  - by intros s.
  - intros s1 s2 s3 H12 H23. unfold same_contents in *. congruence.
Qed.

(** Taking and releasing the lock changes the lock only. *)
Lemma leaves_RLock (name : string) : leaves same_contents (mu_RLock name).
Proof. intros s. unfold mu_RLock. by destruct (RLock _ _). Qed.

Lemma leaves_RUnlock (name : string) (counter : nat) :
  leaves same_contents (mu_RUnlock name counter).
Proof. by intros s. Qed.

End method_properties.

(** Runs the steps at the head of a method. *)
Ltac method_steps :=
  repeat first [rewrite bind_read | rewrite bind_run | rewrite bind_call
               | progress cbv beta match].

(** Enters a query: [m] names the lock as [RLock] left it. *)
Ltac under_lock m :=
  rewrite locked_value;
  let counter := fresh "counter" in
  destruct (RLock _ _) as [counter m]; cbn [snd]; method_steps.

(** Shows that a method leaves [R] step by step, up to the next branch of
    its body. *)
Ltac leaves_steps R :=
  repeat first
    [ apply (leaves_ret R) | apply (leaves_read R) | apply (leaves_call R)
    | apply (leaves_run R) | apply (leaves_BlockRange_loop R)
    | apply (leaves_bind R); [|intros ?] ].

(** Takes the branches of a method body apart. *)
Ltac leaves_branch :=
  lazymatch goal with
  | |- leaves _ (match ?scrutinee with _ => _ end) => destruct scrutinee
  end.

Section consensus_properties.
Context `{Types}.

Lemma height_nonempty (s : State) :
  currentPath s ≠ [] →
  N.of_nat (length (currentPath s)) < 2 ^ 63 →
  height s = N.of_nat (length (currentPath s) - 1).
Proof.
  intros Hne Hfits. unfold height, two64.
  destruct (currentPath s) as [|id ids]; [done|].
  cbn [length] in *.
  rewrite Z.mod_small; [lia|].
  change (Z.of_N (2 ^ 64)) with (2 ^ 64)%Z.
  assert (2 ^ 63 < 2 ^ 64)%Z by done.
  assert (Z.of_N (N.of_nat (S (length ids))) < 2 ^ 63)%Z
    by (change (2 ^ 63)%Z with (Z.of_N (2 ^ 63)); lia).
  lia.
Qed.

(** Along a chain the heights count up from the node it continues. *)
Lemma chain_heights (s : State) (ids : list BlockID) :
  ∀ (prev : option blockNode) (base : N) (i : nat) (id : BlockID),
    chain s prev ids →
    match prev with
    | None => base = 0
    | Some p => base = node_height p + 1
    end →
    ids !! i = Some id →
    ∃ n, blockMap s !! id = Some n ∧ ID (block n) = id
         ∧ node_height n = base + N.of_nat i.
Proof.
  induction ids as [|id0 ids IH]; intros prev base i id Hchain Hbase Hi.
  - by rewrite lookup_nil in Hi.
  - cbn [chain] in Hchain.
    destruct (blockMap s !! id0) as [n0|] eqn:Hn0; [|done].
    destruct Hchain as (Hid0 & Hparent & Hrule & Hrest).
    assert (node_height n0 = base) as Hh0.
    { unfold heightRule in Hrule. rewrite Hparent in Hrule.
      destruct prev; congruence. }
    destruct i as [|i].
    + injection Hi as <-. exists n0. split_and!; [done..|lia].
    + destruct (IH (Some n0) (base + 1) i id Hrest) as (n & Hn & Hidn & Hh).
      * by rewrite Hh0.
      * done.
      * exists n. split_and!; [done..|lia].
Qed.

Lemma consistent_lookup (s : State) (h : BlockHeight) :
  consistent s →
  h ≤ height s →
  ∃ id n, currentPath s !! N.to_nat h = Some id
          ∧ blockMap s !! id = Some n ∧ ID (block n) = id
          ∧ node_height n = h.
Proof.
  intros [Hne Hfits Hchain _] Hh.
  rewrite height_nonempty in Hh by done.
  assert (length (currentPath s) ≠ 0)%nat by by destruct (currentPath s).
  destruct (lookup_lt_is_Some_2 (currentPath s) (N.to_nat h)) as [id Hid]; [lia|].
  destruct (chain_heights s _ None 0 _ _ Hchain eq_refl Hid)
    as (n & Hn & Hidn & Hhn).
  exists id, n. split_and!; [done..|lia].
Qed.

(** C1. Path consistency: in a consistent state, for every height [h] up
    to the current height, [blockAtHeight h] returns, with [exists] true,
    the block of the node that the block map holds for [currentPath[h]],
    a block with that identifier, and [HeightOfBlock] of that identifier
    returns [h]; in every state, for every [h] above the current height
    [blockAtHeight h] returns [exists] false. *)
Theorem path_consistency (s : State) (h : BlockHeight) :
  (consistent s →
   h ≤ height s →
   ∃ id node,
     currentPath s !! N.to_nat h = Some id
     ∧ blockMap s !! id = Some node
     ∧ ID (block node) = id
     ∧ blockAtHeight s h = Returns (block node, true)
     ∧ (HeightOfBlock id s).1 = Returns (h, true))
  ∧ (height s < h → blockAtHeight s h = Returns (Block_zero, false)).
Proof.
  split.
  - intros Hs Hh.
    destruct (consistent_lookup s h Hs Hh) as (id & n & Hid & Hn & Hidn & Hhn).
    exists id, n. split_and!; [done..| |].
    + unfold blockAtHeight. rewrite bool_decide_eq_true_2 by done.
      unfold index. rewrite Hid. cbn. rewrite Hn. done.
    + unfold HeightOfBlock. under_lock m. cbn. rewrite Hn, Hhn. done.
  - intros Hh. unfold blockAtHeight.
    rewrite bool_decide_eq_false_2 by lia. done.
Qed.

(** Every identifier of a chain is the key of a node. *)
Lemma chain_nodes (s : State) (ids : list BlockID) :
  ∀ prev, chain s prev ids →
  ∃ nodes, Forall2 (λ id n, blockMap s !! id = Some n) ids nodes.
Proof.
  induction ids as [|id ids IH]; intros prev Hchain.
  - exists []. constructor.
  - cbn [chain] in Hchain.
    destruct (blockMap s !! id) as [n|] eqn:Hn; [|done].
    destruct Hchain as (_ & _ & _ & Hrest).
    destruct (IH _ Hrest) as [nodes Hnodes].
    exists (n :: nodes). by constructor.
Qed.

(** The loop of [BlockRange] over known identifiers overwrites the entries
    from [i] on with the blocks of their nodes. *)
Lemma BlockRange_loop_known (s : State) (ids : list BlockID) :
  ∀ (nodes : list blockNode) (i : nat) (blocks : list Block),
    Forall2 (λ id n, blockMap s !! id = Some n) ids nodes →
    (i + length ids ≤ length blocks)%nat →
    BlockRange_loop ids i blocks s
    = (Returns (take i blocks ++ (block <$> nodes)
                  ++ drop (i + length ids) blocks, None), s).
Proof.
  induction ids as [|id ids IH]; intros nodes i blocks Hnodes Hlen.
  - apply Forall2_nil_inv_l in Hnodes as ->. cbn.
    by rewrite Nat.add_0_r, take_drop.
  - apply Forall2_cons_inv_l in Hnodes as (n & nodes' & Hn & Hnodes & ->).
    cbn [BlockRange_loop length] in *. rewrite bind_read, Hn.
    rewrite decide_True by lia.
    rewrite (IH nodes' (S i)) by (rewrite ?length_insert; done || lia).
    rewrite (take_S_r _ _ (block n)) by (apply list_lookup_insert_eq; lia).
    rewrite take_insert_ge by lia.
    rewrite drop_insert_lt by lia.
    rewrite fmap_cons, <- app_assoc. cbn.
    by replace (S (i + length ids)) with (i + S (length ids))%nat by lia.
Qed.

(** C4. [BlockRange start stop] returns the error of an invalid range when
    [start > stop] or [stop] exceeds the current height. In a consistent
    state it returns an error in no other case: otherwise it returns,
    without an error, [(stop - start) + 1] blocks, for every height [i]
    from [start] to [stop] the block of the node that the block map holds
    for [currentPath[i]], at position [i - start]. *)
Theorem BlockRange_spec (s : State) (start stop : BlockHeight) :
  (stop < start ∨ height s < stop →
   (BlockRange start stop s).1
   = Returns ([], Some (errors_New "invalid range")))
  ∧ (consistent s →
     ((∃ blocks e, (BlockRange start stop s).1 = Returns (blocks, Some e))
      ↔ (stop < start ∨ height s < stop))
     ∧ (¬ (stop < start ∨ height s < stop) →
        ∃ blocks,
          (BlockRange start stop s).1 = Returns (blocks, None)
          ∧ length blocks = N.to_nat (stop - start + 1)
          ∧ ∀ i, start ≤ i ≤ stop →
              ∃ id node,
                currentPath s !! N.to_nat i = Some id
                ∧ blockMap s !! id = Some node
                ∧ blocks !! N.to_nat (i - start) = Some (block node))).
Proof.
  assert (stop < start ∨ height s < stop →
          (BlockRange start stop s).1
          = Returns ([], Some (errors_New "invalid range"))) as Hinvalid.
  { intros Hrange. unfold BlockRange. under_lock m.
    change (height (set_mu s m)) with (height s).
    destruct Hrange.
    - by rewrite bool_decide_eq_true_2 by done.
    - rewrite (bool_decide_eq_true_2 (height s < stop)) by done.
      by rewrite orb_true_r. }
  split; [done|].
  intros Hs.
  assert (¬ (stop < start ∨ height s < stop) →
     ∃ blocks,
       (BlockRange start stop s).1 = Returns (blocks, None)
       ∧ length blocks = N.to_nat (stop - start + 1)
       ∧ ∀ i, start ≤ i ≤ stop →
           ∃ id node,
             currentPath s !! N.to_nat i = Some id
             ∧ blockMap s !! id = Some node
             ∧ blocks !! N.to_nat (i - start) = Some (block node)) as Hok.
  { intros Hrange.
    pose proof Hs as [Hne Hfits Hchain _].
    pose proof (height_nonempty s Hne Hfits) as Hheight.
    assert (length (currentPath s) ≠ 0)%nat by by destruct (currentPath s).
    assert (2 ^ 63 < two64) by done.
    assert (start ≤ stop ∧ stop < N.of_nat (length (currentPath s)))
      as [Hle Hlt] by lia.
    destruct (chain_nodes s _ _ Hchain) as [nodes Hnodes].
    unfold BlockRange. under_lock m.
    change (height (set_mu s m)) with (height s).
    rewrite !bool_decide_eq_false_2 by lia. cbn [orb].
    assert (sub64 stop start = stop - start) as ->.
    { unfold sub64. rewrite Z.mod_small; lia. }
    assert (add64 (stop - start) 1 = stop - start + 1) as ->.
    { unfold add64. rewrite N.mod_small; lia. }
    assert (add64 stop 1 = stop + 1) as ->.
    { unfold add64. rewrite N.mod_small; lia. }
    unfold make. rewrite decide_True by lia. method_steps.
    change (currentPath (set_mu s m)) with (currentPath s).
    unfold slice. rewrite decide_True by lia. method_steps. cbn.
    set (k := N.to_nat (stop + 1 - start)).
    set (ids := take k (drop (N.to_nat start) (currentPath s))).
    set (ns := take k (drop (N.to_nat start) nodes)).
    assert (Forall2 (λ id n, blockMap (set_mu s m) !! id = Some n) ids ns)
      as Hsub by by apply Forall2_take, Forall2_drop.
    assert (length ids = k) as Hk.
    { unfold ids. rewrite length_take, length_drop. lia. }
    rewrite (BlockRange_loop_known _ ids ns) by
      (rewrite ?length_replicate; done || lia).
    cbn [fst].
    rewrite drop_ge by (rewrite length_replicate; lia).
    rewrite take_0, app_nil_r, app_nil_l.
    eexists. split; [done|]. split.
    - apply Forall2_length in Hsub. rewrite length_fmap, <- Hsub. lia.
    - intros i Hi.
      destruct (lookup_lt_is_Some_2 (currentPath s) (N.to_nat i))
        as [id Hid]; [lia|].
      destruct (Forall2_lookup_l _ _ _ _ _ Hnodes Hid) as (n & Hn & Hidn).
      exists id, n. split_and!; [done..|].
      rewrite list_lookup_fmap. unfold ns.
      rewrite lookup_take_lt by lia. rewrite lookup_drop.
      replace (N.to_nat start + N.to_nat (i - start))%nat with (N.to_nat i)
        by lia.
      by rewrite Hn. }
  split; [|done]. split.
  - intros (blocks & e & Herr).
    destruct (decide (stop < start ∨ height s < stop)) as [|Hrange]; [done|].
    destruct (Hok Hrange) as (blocks' & Hret & _). congruence.
  - intros Hrange. eexists _, _. by apply Hinvalid.
Qed.

(** A node that descends from the current path has a fork. *)
Lemma rooted_fork (s : State) (bn : blockNode) :
  rooted s bn = true → ∃ removed ancestor, fork s bn removed ancestor.
Proof.
  induction bn as [bn Hpar|bn p Hpar IH] using blockNode_parent_ind;
    intros Hrooted; destruct bn as [b par h t d diffs]; cbn in Hpar;
    subst par; cbn [rooted parent] in Hrooted;
    destruct (onCurrentPath s _) eqn:Hon.
  - eexists [], _. by constructor.
  - done.
  - eexists [], _. by constructor.
  - destruct (IH Hrooted) as (removed & ancestor & Hfork).
    eexists (_ :: removed), ancestor. by econstructor.
Qed.

(** The walk of [backtrackToCurrentPath] ends at the ancestor of the fork,
    with the fork's nodes stacked on what it had met before. *)
Lemma backtrack_loop_fork (s : State) (bn : blockNode)
    (removed : list blockNode) (ancestor : blockNode) :
  fork s bn removed ancestor →
  ∀ met, backtrack_loop s bn (bn :: met)
         = Returns (ancestor :: reverse removed ++ met).
Proof.
  induction 1 as [bn Hon|bn p removed ancestor Hoff Hpar _ IH]; intros met.
  - destruct bn; cbn in *. by rewrite Hon.
  - destruct bn as [b par h t d diffs]; cbn in Hpar; subst par.
    cbn [backtrack_loop parent]. rewrite Hoff, IH.
    by rewrite reverse_cons, <- app_assoc.
Qed.

(** The first loop of [BlocksSince] lists the fork from the given node
    downwards. *)
Lemma BlocksSince_loop_fork (ancestor : blockNode) (removed : list blockNode) :
  ∀ (i : nat) (acc : list BlockID),
    (i ≤ length removed)%nat →
    BlocksSince_loop (ancestor :: reverse removed) i acc
    = Returns (acc ++ ((λ bn, ID (block bn))
                         <$> drop (length removed - i) removed)).
Proof.
  induction i as [|i IH]; intros acc Hi.
  - cbn. by rewrite Nat.sub_0_r, drop_all, app_nil_r.
  - cbn [BlocksSince_loop]. unfold index.
    rewrite Nat2N.id.
    change ((ancestor :: reverse removed) !! S i) with (reverse removed !! i).
    destruct (lookup_lt_is_Some_2 removed (length removed - S i))
      as [bn Hbn]; [lia|].
    rewrite reverse_lookup by lia.
    rewrite Hbn. cbn. rewrite IH by lia.
    rewrite <- app_assoc. f_equal. f_equal.
    rewrite (drop_S _ bn (length removed - S i)) by done.
    cbn. by replace (S (length removed - S i)) with (length removed - i)%nat by lia.
Qed.

(** A node of the current path stands below its length. *)
Lemma onCurrentPath_lt (s : State) (bn : blockNode) :
  onCurrentPath s bn = true →
  (N.to_nat (node_height bn) < length (currentPath s))%nat.
Proof.
  unfold onCurrentPath. intros Hon%bool_decide_eq_true.
  by eapply lookup_lt_Some.
Qed.

Lemma fork_ancestor (s : State) (bn : blockNode) (removed : list blockNode)
    (ancestor : blockNode) :
  fork s bn removed ancestor → onCurrentPath s ancestor = true.
Proof. by induction 1. Qed.

Lemma fork_removed (s : State) (bn : blockNode) (removed : list blockNode)
    (ancestor : blockNode) :
  fork s bn removed ancestor →
  Forall (λ bn, onCurrentPath s bn = false) removed.
Proof. induction 1; by constructor. Qed.

(** C2. In a consistent state, a block [id] of the block map has a fork:
    the nodes [removed] met by walking parent links from its node, the
    node itself first, until the walk reaches the current path at
    [ancestor]; the nodes of [removed] are off the current path and
    [ancestor] is on it. [BlocksSince id] returns as removed blocks the
    identifiers of [removed] in that order, which starts with [id]'s own
    block when it lies off the current path, and as added blocks the
    current path above the ancestor's height. *)
Theorem BlocksSince_fork (s : State) (id : BlockID) (node : blockNode) :
  consistent s →
  blockMap s !! id = Some node →
  (∃ removed ancestor, fork s node removed ancestor)
  ∧ ∀ removed ancestor,
      fork s node removed ancestor →
      Forall (λ bn, onCurrentPath s bn = false) removed
      ∧ onCurrentPath s ancestor = true
      ∧ (onCurrentPath s node = false → ∃ rest, removed = node :: rest)
      ∧ (BlocksSince id s).1
        = Returns ((λ bn, ID (block bn)) <$> removed,
                   drop (S (N.to_nat (node_height ancestor))) (currentPath s),
                   None).
Proof.
  intros [Hne Hfits Hchain Hrooted] Hnode. split.
  - apply rooted_fork. by eapply Hrooted.
  - intros removed ancestor Hfork. split_and!.
    + by eapply fork_removed.
    + by eapply fork_ancestor.
    + intros Hoff. destruct Hfork; [congruence|by eexists].
    + pose proof (onCurrentPath_lt _ _ (fork_ancestor _ _ _ _ Hfork)) as Hlt.
      unfold BlocksSince. under_lock m.
      change (blockMap (set_mu s m)) with (blockMap s).
      rewrite Hnode. method_steps. cbv beta. unfold backtrackToCurrentPath.
      assert (fork (set_mu s m) node removed ancestor) as Hfork'
        by (clear -Hfork; induction Hfork; by econstructor).
      rewrite (backtrack_loop_fork _ _ _ _ Hfork'), app_nil_r.
      method_steps. cbn [length].
      replace (S (length (reverse removed)) - 1)%nat with (length removed)
        by (rewrite length_reverse; lia).
      rewrite BlocksSince_loop_fork by done.
      rewrite Nat.sub_diag, drop_0, app_nil_l.
      method_steps. unfold index.
      change ((ancestor :: reverse removed) !! N.to_nat 0) with (Some ancestor).
      method_steps.
      change (currentPath (set_mu s m)) with (currentPath s).
      assert (2 ^ 63 < two64) by done.
      assert (add64 (node_height ancestor) 1 = node_height ancestor + 1) as ->.
      { unfold add64. rewrite N.mod_small; lia. }
      unfold slice. rewrite decide_True by lia. cbn.
      rewrite take_ge by (rewrite length_drop; lia).
      do 4 f_equal. lia.
Qed.

(** *** The sorted sets of outputs *)

Lemma foldl_append (init keys : list Hash) :
  foldl (λ acc outputID, acc ++ [outputID]) init keys = init ++ keys.
Proof.
  revert init. induction keys as [|k keys IH]; intros init; cbn.
  - by rewrite app_nil_r.
  - by rewrite IH, <- app_assoc.
Qed.

(** The sorted slice does not depend on the order in which [range] yields
    the keys of the map. *)
Lemma sort_Sort_order (l1 l2 : list Hash) :
  l1 ≡ₚ l2 → sort_Sort l1 = sort_Sort l2.
Proof.
  intros Hperm. unfold sort_Sort.
  apply (Sorted_unique N.le).
  - apply Sorted_merge_sort; apply _.
  - apply Sorted_merge_sort; apply _.
  - by rewrite !merge_sort_Permutation.
Qed.

(** X2. [sortedUscoSet] returns the same slice in whatever order [range]
    yields the keys of the map. *)
Lemma sortedUscoSet_order (keys keys' : list SiacoinOutputID) (s : State) :
  keys ≡ₚ keys' →
  sortedUscoSet_ranging keys s = sortedUscoSet_ranging keys' s.
Proof.
  intros Hperm. unfold sortedUscoSet_ranging.
  rewrite !foldl_append.
  by rewrite (sort_Sort_order (_ ++ keys) (_ ++ keys')) by by rewrite Hperm.
Qed.

Lemma sortedUsfoSet_order (keys keys' : list SiafundOutputID) (s : State) :
  keys ≡ₚ keys' →
  sortedUsfoSet_ranging keys s = sortedUsfoSet_ranging keys' s.
Proof.
  intros Hperm. unfold sortedUsfoSet_ranging.
  rewrite !foldl_append.
  by rewrite (sort_Sort_order (_ ++ keys) (_ ++ keys')) by by rewrite Hperm.
Qed.

Lemma fill_length {A B : Type} (f : B → A) (l : list (nat * B)) :
  ∀ acc : list A,
    length (foldl (λ acc '(i, x), <[i := f x]> acc) acc l) = length acc.
Proof.
  induction l as [|[i x] l IH]; intros acc; cbn; [done|].
  by rewrite IH, length_insert.
Qed.

(** The slice that [sortedUscoSet] returns is twice as long as the map has
    outputs. *)
Lemma sortedUscoSet_length (s : State) :
  length (sortedUscoSet s) = (2 * size (siacoinOutputs s))%nat.
Proof.
  unfold sortedUscoSet, sortedUscoSet_ranging.
  rewrite fill_length, length_replicate, foldl_append.
  unfold sort_Sort. rewrite merge_sort_Permutation.
  rewrite length_app, length_replicate. unfold rangeKeys.
  rewrite length_fmap, length_map_to_list. lia.
Qed.

(** Filling a slice of the right length with [f] of each element, by
    position, gives the elements' images in order. *)
Lemma fill_fmap {A B : Type} (f : B → A) (l : list B) :
  ∀ acc : list A,
    (length l ≤ length acc)%nat →
    foldl (λ acc '(i, x), <[i := f x]> acc) acc (imap pair l)
    = (f <$> l) ++ drop (length l) acc.
Proof.
  induction l as [|x l IH] using rev_ind; intros acc Hlen.
  - by rewrite drop_0.
  - rewrite length_app in Hlen. cbn in Hlen.
    rewrite imap_app, foldl_app, IH by lia. cbn.
    rewrite Nat.add_0_r, fmap_app, length_app, <- app_assoc. cbn.
    replace (length l) with (length (f <$> l) + 0)%nat at 1
      by (rewrite length_fmap; lia).
    rewrite insert_app_r. f_equal.
    destruct (drop (length l) acc) as [|y rest] eqn:Hdrop.
    { apply (f_equal length) in Hdrop. rewrite length_drop in Hdrop.
      cbn in Hdrop. lia. }
    cbn. f_equal. by rewrite <- drop_drop, Hdrop.
Qed.

(** Zero hashes sort to the front. *)
Lemma sort_Sort_zeros (n : nat) (keys : list Hash) :
  sort_Sort (replicate n 0 ++ keys) = replicate n 0 ++ sort_Sort keys.
Proof.
  unfold sort_Sort. apply (Sorted_unique N.le).
  - apply Sorted_merge_sort; apply _.
  - induction n as [|n IH]; cbn.
    + apply Sorted_merge_sort; apply _.
    + constructor; [done|].
      destruct (replicate n 0 ++ merge_sort N.le keys); constructor. lia.
  - by rewrite !merge_sort_Permutation.
Qed.

(** X1. What [sortedUscoSet] returns: for each output of the map one copy
    of what the map holds under the zero hash, the zero output if nothing,
    and then the outputs in the order of their identifiers. *)
Lemma sortedUscoSet_doubled (s : State) :
  sortedUscoSet s
  = replicate (size (siacoinOutputs s)) (output s 0).1
    ++ ((λ id, (output s id).1) <$> sort_Sort (rangeKeys (siacoinOutputs s))).
Proof.
  unfold sortedUscoSet, sortedUscoSet_ranging.
  rewrite foldl_append, sort_Sort_zeros.
  rewrite fill_fmap by (by rewrite length_replicate).
  rewrite drop_ge by (by rewrite length_replicate).
  by rewrite app_nil_r, fmap_app, fmap_replicate.
Qed.

(** *** Queries do not write *)

(** C8. Every read query leaves the block map, the current path and the
    three ledger maps as they were, whatever it returns. *)
Theorem queries_frame (s : State) :
  (∀ h, contents (BlockAtHeight h s).2 = contents s)
  ∧ (∀ id, contents (Block_ id s).2 = contents s)
  ∧ (∀ start stop, contents (BlockRange start stop s).2 = contents s)
  ∧ (∀ id, contents (BlocksSince id s).2 = contents s)
  ∧ (∀ id, contents (BlockOutputDiffs id s).2 = contents s)
  ∧ (∀ bid, contents (HeightOfBlock bid s).2 = contents s)
  ∧ (∀ id, contents (SiacoinOutput_ id s).2 = contents s)
  ∧ (∀ id, contents (SiafundOutput_ id s).2 = contents s)
  ∧ (∀ id, contents (FileContract_ id s).2 = contents s)
  ∧ contents (SortedUtxoSet s).2 = contents s
  ∧ contents (CurrentBlock s).2 = contents s
  ∧ contents (Height s).2 = contents s.
Proof.
  split_and!; intros;
    lazymatch goal with
    | |- contents (?query s).2 = contents s =>
      enough (leaves same_contents query) as Hquery by apply Hquery
    end.
  all: apply (leaves_bind same_contents); [apply leaves_RLock|intros counter].
  all: apply (leaves_defer same_contents); [apply leaves_RUnlock|].
  - (* BlockAtHeight *)
    leaves_steps same_contents.
  - (* Block *)
    leaves_steps same_contents.
    destruct (_ !! id); leaves_steps same_contents.
  - (* BlockRange *)
    leaves_steps same_contents.
    destruct (_ || _); leaves_steps same_contents.
  - (* BlocksSince *)
    leaves_steps same_contents.
    destruct (_ !! id); leaves_steps same_contents.
  - (* BlockOutputDiffs *)
    leaves_steps same_contents.
    destruct (_ !! id) as [node|]; [destruct (negb _)|];
      leaves_steps same_contents.
  - (* HeightOfBlock *)
    leaves_steps same_contents.
    destruct (_ !! bid); leaves_steps same_contents.
  - (* SiacoinOutput *)
    leaves_steps same_contents.
  - (* SiafundOutput *)
    leaves_steps same_contents.
  - (* FileContract *)
    leaves_steps same_contents.
  - (* SortedUtxoSet *)
    leaves_steps same_contents.
  - (* CurrentBlock *)
    leaves_steps same_contents.
  - (* Height *)
    leaves_steps same_contents.
Qed.

(** *** The weight of the current block *)

(** The current block is the last block of the current path. *)
Lemma currentBlockNode_last (s : State) (id : BlockID) :
  N.of_nat (length (currentPath s)) < 2 ^ 63 →
  list.last (currentPath s) = Some id →
  currentBlockNode s = Returns (blockMap s !! id).
Proof.
  intros Hfits Hlast.
  assert (currentPath s ≠ []) as Hne
    by (intros Hnil; by rewrite Hnil in Hlast).
  unfold currentBlockNode, currentBlockID, index.
  rewrite (height_nonempty s Hne Hfits), Nat2N.id.
  rewrite last_lookup in Hlast.
  replace (length (currentPath s) - 1)%nat with (pred (length (currentPath s)))
    by lia.
  by rewrite Hlast.
Qed.

(** C9. In a consistent state the last identifier of the current path has
    a node, the node of the current block, and [currentBlockWeight]
    returns the rational number 1/target of that node when the target is
    not zero: the number whose product with the target is 1. Two states
    whose current paths end in blocks of equal targets have equal
    weights. *)
Theorem currentBlockWeight_inverse (s : State) :
  consistent s →
  ∃ id node,
    list.last (currentPath s) = Some id
    ∧ blockMap s !! id = Some node
    ∧ currentBlockNode s = Returns (Some node)
    ∧ (target node ≠ 0 →
       currentBlockWeight s = Returns (1 / Qc_of_Z (Z.of_N (target node)))%Qc
       ∧ (1 / Qc_of_Z (Z.of_N (target node)) * Qc_of_Z (Z.of_N (target node))
          = 1)%Qc)
    ∧ ∀ s' id' node',
        N.of_nat (length (currentPath s')) < 2 ^ 63 →
        list.last (currentPath s') = Some id' →
        blockMap s' !! id' = Some node' →
        target node' = target node →
        currentBlockWeight s' = currentBlockWeight s.
Proof.
  intros Hs. pose proof Hs as [Hne Hfits _ _].
  destruct (consistent_lookup s (height s) Hs)
    as (id & node & Hid & Hmap & _ & _); [lia|].
  assert (list.last (currentPath s) = Some id) as Hlast.
  { rewrite last_lookup, <- Hid. f_equal.
    rewrite (height_nonempty s Hne Hfits). lia. }
  pose proof (currentBlockNode_last s id Hfits Hlast) as Hnode.
  rewrite Hmap in Hnode.
  exists id, node. split_and!; [done..| |].
  - intros Ht. split.
    + unfold currentBlockWeight. rewrite Hnode. cbn.
      unfold Inverse. by rewrite decide_False.
    + unfold Qcdiv. rewrite Qcmult_1_l. rewrite Qcmult_comm.
      apply Qcmult_inv_r. intros Hz.
      rewrite <- Z2Qc_inj_0 in Hz. apply Z2Qc_inj in Hz. lia.
  - intros s' id' node' Hfits' Hlast' Hmap' Heq. unfold currentBlockWeight.
    rewrite Hnode, (currentBlockNode_last s' id' Hfits' Hlast'), Hmap'. cbn.
    by rewrite Heq.
Qed.

(** *** The validity of transactions *)

Section validity.
Context `{!Validation}.

(** C5. A transaction whose encoding is longer than [BlockSizeLimit - 5000]
    bytes is rejected by [ValidTransactionComponents], whatever the state
    holds and whatever the other checks say. *)
Theorem oversized_rejected (s : State) (t : Transaction) :
  (BlockSizeLimit - 5000 < Z.of_nat (length (Marshal t)))%Z →
  (ValidTransactionComponents t s).1
  = Returns (Some (errors_New "transaction is too large")).
Proof.
  intros Hsize. unfold ValidTransactionComponents. under_lock m.
  by rewrite bool_decide_eq_true_2.
Qed.

(** C6. A transaction within the size budget that passes the checks of the
    storage-proof rules, the file contracts, the storage proofs and the
    signatures, and that spends a siacoin output the ledger does not hold,
    is accepted by [ValidTransactionComponents] and rejected by
    [ValidTransaction]. *)
Theorem missing_input_accepted (s : State) (t : Transaction)
    (id : SiacoinOutputID) :
  (Z.of_nat (length (Marshal t)) ≤ BlockSizeLimit - 5000)%Z →
  FollowsStorageProofRules t = None →
  (∀ m, validFileContracts (set_mu s m) t = None) →
  (∀ m, validStorageProofs (set_mu s m) t = None) →
  (∀ m, validSignatures (set_mu s m) t = None) →
  id ∈ SiacoinInputs t →
  siacoinOutputs s !! id = None →
  (ValidTransactionComponents t s).1 = Returns None
  ∧ ∃ e, (ValidTransaction t s).1 = Returns (Some e).
Proof.
  intros Hsize Hrules Hcontracts Hproofs Hsigs Hin Hmissing. split.
  - unfold ValidTransactionComponents. under_lock m.
    rewrite bool_decide_eq_false_2 by lia.
    rewrite Hrules. method_steps. rewrite Hcontracts. method_steps.
    rewrite Hproofs. unfold read. cbn [fst]. by rewrite Hsigs.
  - unfold ValidTransaction. under_lock m.
    unfold read. cbn [fst]. unfold validTransaction.
    rewrite bool_decide_eq_false_2 by lia.
    rewrite Hrules, Hcontracts, Hproofs, Hsigs.
    assert (forallb (λ id, bool_decide (is_Some (siacoinOutputs (set_mu s m) !! id)))
              (SiacoinInputs t) = false) as ->.
    { apply not_true_is_false. intros Hall.
      rewrite forallb_forall in Hall.
      apply list_elem_of_In, Hall, bool_decide_eq_true in Hin.
      cbn in Hin. rewrite Hmissing in Hin. by destruct Hin. }
    cbn. eauto.
Qed.

End validity.

End consensus_properties.

(** ** Properties of package contractor *)

Section contractor_properties.
Context {CS : Type} `{!consensusSet CS} `{!Persistence}.

Lemma resolveID_more_fuel (c : Contractor) (fuel : nat) :
  ∀ (fuel' : nat) (id r : FileContractID),
    resolveID fuel c id = Some r →
    (fuel ≤ fuel')%nat →
    resolveID fuel' c id = Some r.
Proof.
  induction fuel as [|fuel IH]; intros fuel' id r Hr Hle.
  - destruct fuel'; cbn in *; destruct (renewedIDs c !! id); done.
  - destruct fuel' as [|fuel']; [lia|]. cbn in *.
    destruct (renewedIDs c !! id); [|done]. apply IH; [done|lia].
Qed.

Lemma resolveID_not_renewed (c : Contractor) (fuel : nat) :
  ∀ id r : FileContractID,
    resolveID fuel c id = Some r → renewedIDs c !! r = None.
Proof.
  induction fuel as [|fuel IH]; intros id r Hr; cbn in Hr;
    destruct (renewedIDs c !! id) eqn:Hid; try done.
  - by injection Hr as <-.
  - by eapply IH.
  - by injection Hr as <-.
Qed.

Lemma resolveID_stays (c : Contractor) (fuel : nat) (r : FileContractID) :
  renewedIDs c !! r = None → resolveID fuel c r = Some r.
Proof. intros Hr. destruct fuel; cbn; by rewrite Hr. Qed.

Lemma ends_resolveID (c : Contractor) (id : FileContractID) :
  ends c id → ∃ fuel r, resolveID fuel c id = Some r.
Proof.
  induction 1 as [id Hid|id newID Hid _ (fuel & r & IH)].
  - exists 0%nat, id. by apply resolveID_stays.
  - exists (S fuel), r. cbn. by rewrite Hid.
Qed.

(** C10. When the chain of renewals from [id] ends, [resolveID id], and
    [ResolveID id] with it, returns for every sufficient number of
    iterations one identifier, which has no entry in [renewedIDs];
    resolving what [resolveID] returned returns it again, and an [id]
    without an entry resolves to itself. *)
Theorem resolveID_ends (c : Contractor) (id : FileContractID) :
  ends c id →
  ∃ fuel r,
    (∀ fuel', (fuel ≤ fuel')%nat →
       resolveID fuel' c id = Some r ∧ ResolveID fuel' c id = Some r)
    ∧ renewedIDs c !! r = None
    ∧ (∀ fuel', (fuel ≤ fuel')%nat →
         (r' ← resolveID fuel' c id; resolveID fuel' c r')
         = resolveID fuel' c id)
    ∧ (renewedIDs c !! id = None → r = id).
Proof.
  intros (fuel & r & Hr)%ends_resolveID.
  pose proof (resolveID_not_renewed _ _ _ _ Hr) as Hnone.
  exists fuel, r. split_and!.
  - intros fuel' Hle. unfold ResolveID. split; by eapply resolveID_more_fuel.
  - done.
  - intros fuel' Hle. rewrite (resolveID_more_fuel _ _ _ _ _ Hr Hle). cbn.
    by apply resolveID_stays.
  - intros Hid. rewrite (resolveID_stays _ fuel _ Hid) in Hr. congruence.
Qed.

(** C7. When the first subscription of [newContractor] fails with
    [ErrInvalidConsensusChangeID], the contractor is passed once more, with
    [blockHeight] 0 and [lastChange] the sentinel
    [ConsensusChangeBeginning], to start from that sentinel, and there is
    no third subscription; if this second one fails, no contractor is
    returned but an error. When the first subscription fails with another
    error there is no second one, and no contractor is returned but an
    error. *)
Theorem newContractor_resubscribes (cs cs1 : CS) (eload : option error)
    (c c1 : Contractor) (e1 : error) :
  load {| blockHeight := 0; currentPeriod := 0; lastChange := 0;
          renewedIDs := ∅ |} = (eload, c) →
  match eload with Some e => os_IsNotExist e = true | None => True end →
  ConsensusSetSubscribe cs c (lastChange c) = (Some e1, c1, cs1) →
  let reset := {| blockHeight := 0; currentPeriod := currentPeriod c1;
                  lastChange := ConsensusChangeBeginning;
                  renewedIDs := renewedIDs c1 |} in
  (e1 = ErrInvalidConsensusChangeID →
   ∀ e2 c2 cs2,
     ConsensusSetSubscribe cs1 reset ConsensusChangeBeginning = (e2, c2, cs2) →
     subscriptions (newContractor cs)
     = [(c, lastChange c); (reset, ConsensusChangeBeginning)]
     ∧ consensus (newContractor cs) = cs2
     ∧ ∀ e, e2 = Some e →
         contractor (newContractor cs) = None
         ∧ err (newContractor cs)
           = Some (errors_New ("contractor subscription failed: " ++ Error e)))
  ∧ (e1 ≠ ErrInvalidConsensusChangeID →
     subscriptions (newContractor cs) = [(c, lastChange c)]
     ∧ consensus (newContractor cs) = cs1
     ∧ contractor (newContractor cs) = None
     ∧ err (newContractor cs)
       = Some (errors_New ("contractor subscription failed: " ++ Error e1))).
Proof.
  intros Hload Hexist Hsub reset.
  assert (match eload with
          | Some e => negb (os_IsNotExist e)
          | None => false
          end = false) as Hgo.
  { destruct eload; [by rewrite Hexist|done]. }
  split.
  - intros -> e2 c2 cs2 Hsub2. unfold newContractor.
    rewrite Hload, Hgo, Hsub. cbn [lastChange]. fold reset.
    rewrite Hsub2.
    destruct e2 as [e|].
    + split_and!; [done..|]. intros ? [= <-]. done.
    + destruct (save c2); split_and!; done.
  - intros Hother. unfold newContractor.
    rewrite Hload, Hgo, Hsub.
    destruct e1; [done|]. done.
Qed.

End contractor_properties.



(** ** The properties on the reorganised tree *)

Lemma reorganised_consistent (debug : bool) :
  @consistent (demoTypes debug) (reorganised debug).
Proof.
  split; [done|done|vm_compute; tauto|].
  apply map_Forall_to_list. vm_compute. repeat constructor.
Defined.

Lemma path_consistency_witness :
  @blockAtHeight (demoTypes false) (reorganised false) 3
  = Returns (203, true)
  ∧ (@HeightOfBlock (demoTypes false) 203 (reorganised false)).1
    = Returns (3, true)
  ∧ @blockAtHeight (demoTypes false) (reorganised false) 8
    = Returns (0, false).
Proof.
  destruct (@path_consistency (demoTypes false) (reorganised false) 3)
    as [Hin _].
  destruct (@path_consistency (demoTypes false) (reorganised false) 8)
    as [_ Hout].
  destruct Hin as (id & node & Hid & Hnode & _ & Hblock & Hheight);
    [apply reorganised_consistent|by vm_compute|].
  vm_compute in Hid. injection Hid as <-.
  vm_compute in Hnode. injection Hnode as <-.
  split_and!; [exact Hblock|exact Hheight|apply Hout; by vm_compute].
Defined.

Lemma a5_fork :
  @fork (demoTypes false) (reorganised false) (a5 false)
    [a5 false; a4 false; a3 false] (a2 false).
Proof.
  apply (fork_off_path _ _ (a4 false)); [by vm_compute|done|].
  apply (fork_off_path _ _ (a3 false)); [by vm_compute|done|].
  apply (fork_off_path _ _ (a2 false)); [by vm_compute|done|].
  apply fork_on_path. by vm_compute.
Defined.

Lemma BlocksSince_fork_witness :
  (@BlocksSince (demoTypes false) 105 (reorganised false)).1
  = Returns ([105; 104; 103], [203; 204; 205; 206; 207], None).
Proof.
  destruct (@BlocksSince_fork (demoTypes false) (reorganised false)
              105 (a5 false) (reorganised_consistent false) eq_refl)
    as [_ Hfork].
  exact (proj2 (proj2 (proj2
    (Hfork [a5 false; a4 false; a3 false] (a2 false) a5_fork)))).
Defined.

(** C3. With one siacoin output, of value 7 under the identifier 5,
    [sortedUscoSet] and [SortedUtxoSet] return two elements, the zero
    output and then the output; with one siafund output [sortedUsfoSet]
    returns two elements likewise, and panics when [DEBUG] is set. *)
Lemma sorted_sets_on_one_output :
  @sortedUscoSet (demoTypes false) (reorganised false) = [0; 7]
  ∧ (@SortedUtxoSet (demoTypes false) (reorganised false)).1 = Returns [0; 7]
  ∧ @sortedUsfoSet (demoTypes false) (reorganised false) = Returns [0; 3]
  ∧ @sortedUsfoSet (demoTypes true) (reorganised true)
    = Panics "output doesn't exist".
Proof. split_and!; by vm_compute. Qed.

Lemma BlockRange_spec_witness :
  (@BlockRange (demoTypes false) 2 4 (reorganised false)).1
  = Returns ([102; 203; 204], None)
  ∧ (@BlockRange (demoTypes false) 5 3 (reorganised false)).1
    = Returns ([], Some (errors_New "invalid range"))
  ∧ (@BlockRange (demoTypes false) 3 8 (reorganised false)).1
    = Returns ([], Some (errors_New "invalid range")).
Proof.
  split_and!.
  - destruct (@BlockRange_spec (demoTypes false) (reorganised false) 2 4)
      as [_ Hconsistent].
    destruct (Hconsistent (reorganised_consistent false)) as [_ Hok].
    destruct Hok as (blocks & Hret & _); [vm_compute; intros [|]; done|].
    rewrite Hret. vm_compute in Hret. by injection Hret as <-.
  - apply (@BlockRange_spec (demoTypes false) (reorganised false) 5 3).
    left. by vm_compute.
  - apply (@BlockRange_spec (demoTypes false) (reorganised false) 3 8).
    right. by vm_compute.
Defined.

Lemma oversized_rejected_witness :
  (@BlockSizeLimit (demoTypes false) - 5000
   < Z.of_nat (length (@Marshal (demoTypes false)
                         oversized)))%Z
  ∧ (@ValidTransactionComponents (demoTypes false) (demoValidation false)
       oversized (reorganised false)).1
    = Returns (Some (errors_New "transaction is too large")).
Proof.
  assert (@BlockSizeLimit (demoTypes false) - 5000
          < Z.of_nat (length (@Marshal (demoTypes false)
                                oversized)))%Z
    as Hsize by by vm_compute.
  split; [exact Hsize|].
  exact (@oversized_rejected (demoTypes false) (demoValidation false)
           (reorganised false) oversized Hsize).
Defined.

Lemma missing_input_accepted_witness :
  siacoinOutputs (reorganised false) !! 6 = None
  ∧ (@ValidTransactionComponents (demoTypes false) (demoValidation false)
       spendsMissing (reorganised false)).1
    = Returns None
  ∧ ∃ e, (@ValidTransaction (demoTypes false) (demoValidation false)
            spendsMissing (reorganised false)).1
         = Returns (Some e).
Proof.
  split; [done|].
  apply (@missing_input_accepted (demoTypes false) (demoValidation false)
           (reorganised false) spendsMissing 6).
  - by vm_compute.
  - reflexivity.
  - reflexivity.
  - reflexivity.
  - reflexivity.
  - change (6 ∈ [6]). apply list_elem_of_here.
  - reflexivity.
Defined.

Lemma currentBlockWeight_inverse_witness :
  @currentBlockWeight (demoTypes false) (reorganised false)
  = Returns (1 / Qc_of_Z (Z.of_N 16))%Qc.
Proof.
  destruct (@currentBlockWeight_inverse (demoTypes false) (reorganised false)
              (reorganised_consistent false))
    as (id & node & _ & _ & Hnode & Hweight & _).
  vm_compute in Hnode. injection Hnode as <-.
  apply Hweight. done.
Defined.

(** ** The properties on the demonstration contractor *)

Lemma renewedTwice_ends : ends renewedTwice 1.
Proof.
  apply (ends_next _ 1 2); [done|].
  apply (ends_next _ 2 3); [done|].
  by apply ends_here.
Defined.

Lemma resolveID_ends_witness :
  resolveID 2 renewedTwice 1 = Some 3
  ∧ ∃ fuel r,
      (∀ fuel', (fuel ≤ fuel')%nat →
         resolveID fuel' renewedTwice 1 = Some r
         ∧ ResolveID fuel' renewedTwice 1 = Some r)
      ∧ renewedIDs renewedTwice !! r = None
      ∧ (∀ fuel', (fuel ≤ fuel')%nat →
           (r' ← resolveID fuel' renewedTwice 1; resolveID fuel' renewedTwice r')
           = resolveID fuel' renewedTwice 1)
      ∧ (renewedIDs renewedTwice !! 1 = None → r = 1).
Proof.
  split; [done|].
  exact (resolveID_ends renewedTwice 1 renewedTwice_ends).
Defined.

Lemma newContractor_resubscribes_witness :
  let loaded := {| blockHeight := 9; currentPeriod := 0; lastChange := 42;
                   renewedIDs := ∅ |} in
  let reset := {| blockHeight := 0; currentPeriod := 0; lastChange := 0;
                  renewedIDs := ∅ |} in
  subscriptions (@newContractor _ demoConsensusSet demoPersistence []) = [(loaded, 42); (reset, 0)]
  ∧ contractor (@newContractor _ demoConsensusSet demoPersistence []) = None
  ∧ err (@newContractor _ demoConsensusSet demoPersistence [])
    = Some (errors_New
        "contractor subscription failed: consensus subscription has invalid id").
Proof.
  intros loaded reset.
  destruct (@newContractor_resubscribes _ demoConsensusSet demoPersistence [] [] None
              loaded
              loaded ErrInvalidConsensusChangeID eq_refl I eq_refl)
    as [Hinvalid _].
  destruct (Hinvalid eq_refl (Some ErrInvalidConsensusChangeID) reset []
              eq_refl) as (Hcalls & _ & Hfails).
  destruct (Hfails _ eq_refl) as [Hnone Herr].
  split_and!; [exact Hcalls|exact Hnone|exact Herr].
Defined.

(** ** Further properties of package consensus *)

Section consensus_further_properties.
Context `{Types}.

(** *** The sorted set of siafund outputs *)

(** Once the loop of [sortedUsfoSet] has panicked nothing is filled in. *)
Lemma usfo_fill_panicked (s : State) (why : string) (l : list (nat * Hash)) :
  foldl (sortedUsfoSet_fill s) (Panics why) l = Panics why.
Proof. induction l as [|[i id] l IH]; [done|]. cbn. apply IH. Qed.

(** Where no identifier trips the sanity check the loop of
    [sortedUsfoSet] fills the slice like the loop of [sortedUscoSet]. *)
Lemma usfo_fill_quiet (s : State) (l : list (nat * Hash)) :
  ∀ acc : list SiafundOutput,
    Forall (λ p, DEBUG = false ∨ is_Some (siafundOutputs s !! p.2)) l →
    foldl (sortedUsfoSet_fill s) (Returns acc) l
    = Returns
        (foldl (λ acc '(i, outputID),
             <[i := (mapGet SiafundOutput_zero (siafundOutputs s) outputID).1]> acc)
           acc l).
Proof.
  induction l as [|[i id] l IH]; intros acc Hquiet; [done|].
  inversion Hquiet as [|? ? Hhead Hrest]; subst. cbn in *.
  unfold mapGet at 1 3.
  destruct Hhead as [Hdebug|[output Houtput]].
  - rewrite Hdebug. destruct (siafundOutputs s !! id); cbn; by apply IH.
  - rewrite Houtput. rewrite andb_false_r. cbn. by apply IH.
Qed.

(** X3. What [sortedUsfoSet] does: with [DEBUG] set, a map that holds an
    output but none under the zero hash makes it panic; in every other
    case it returns, for each output of the map, one copy of what the map
    holds under the zero hash, the zero output if nothing, and then the
    outputs in the order of their identifiers. *)
Theorem sortedUsfoSet_doubled (s : State) :
  sortedUsfoSet s
  = if DEBUG && bool_decide (siafundOutputs s ≠ ∅)
       && bool_decide (siafundOutputs s !! 0 = None)
    then Panics "output doesn't exist"
    else Returns
      (replicate (size (siafundOutputs s))
         (mapGet SiafundOutput_zero (siafundOutputs s) 0).1
       ++ ((λ id, (mapGet SiafundOutput_zero (siafundOutputs s) id).1)
             <$> sort_Sort (rangeKeys (siafundOutputs s)))).
Proof.
  unfold sortedUsfoSet, sortedUsfoSet_ranging.
  rewrite foldl_append, sort_Sort_zeros.
  change (foldl _ ?a ?l) with (foldl (sortedUsfoSet_fill s) a l).
  set (m := siafundOutputs s).
  set (ids := replicate (size m) 0 ++ sort_Sort (rangeKeys m)).
  destruct (DEBUG && bool_decide (m ≠ ∅) && bool_decide (m !! 0 = None))
    eqn:Htrips.
  - apply andb_prop in Htrips as [Htrips Hzero%bool_decide_eq_true].
    apply andb_prop in Htrips as [Hdebug Hne%bool_decide_eq_true].
    apply map_size_non_empty_iff in Hne.
    unfold ids. destruct (size m) as [|n] eqn:Hsize; [done|].
    cbn [replicate app imap foldl length].
    unfold sortedUsfoSet_fill at 2. cbn [mbind result_bind mret result_ret].
    unfold mapGet. fold m. rewrite Hzero, Hdebug. cbn.
    apply usfo_fill_panicked.
  - rewrite usfo_fill_quiet.
    + rewrite fill_fmap by (by rewrite length_replicate).
      rewrite drop_ge by (by rewrite length_replicate).
      unfold ids. by rewrite app_nil_r, fmap_app, fmap_replicate.
    + apply Forall_forall. intros [i id] Hin%list_elem_of_In.
      apply elem_of_lookup_imap in Hin as [j [id' [[= -> ->] Hid]]].
      cbn. destruct DEBUG eqn:Hdebug; [right|by left].
      apply list_elem_of_lookup_2 in Hid. unfold ids in Hid.
      apply elem_of_app in Hid as [Hid|Hid].
      * apply elem_of_replicate in Hid as [-> Hsize].
        apply map_size_non_empty_iff in Hsize.
        cbn in Htrips. rewrite bool_decide_eq_true_2 in Htrips by done.
        cbn in Htrips. apply bool_decide_eq_false in Htrips.
        by apply not_eq_None_Some.
      * unfold sort_Sort in Hid. rewrite merge_sort_Permutation in Hid.
        unfold rangeKeys in Hid.
        apply list_elem_of_fmap in Hid as [[k v] [-> Hkv]].
        apply elem_of_map_to_list in Hkv. by eexists.
Qed.

(** *** [BlockRange], whatever the state *)

(** The loop of [BlockRange] returns all the blocks or an error and none. *)
Lemma BlockRange_loop_result (s : State) (ids : list BlockID) :
  ∀ (i : nat) (blocks bs : list Block) (e : option error),
    (BlockRange_loop ids i blocks s).1 = Returns (bs, e) →
    match e with
    | Some _ => bs = []
    | None => length bs = length blocks
    end.
Proof.
  induction ids as [|id ids IH]; intros i blocks bs e Hloop;
    cbn [BlockRange_loop] in Hloop.
  - by injection Hloop as <- <-.
  - rewrite bind_read in Hloop. destruct (blockMap s !! id) as [node|].
    + destruct (decide (i < length blocks)%nat); [|done].
      apply IH in Hloop. destruct e; [done|].
      by rewrite length_insert in Hloop.
    + destruct DEBUG; [done|]. by injection Hloop as <- <-.
Qed.

(** X4. Whatever the state, when [BlockRange start stop] returns it
    returns either an error and no block, or no error and as many blocks
    as the range has heights, [(stop - start) + 1] in uint64 arithmetic,
    for a range with [start <= stop] that ends within the current
    height. *)
Theorem BlockRange_all_or_nothing (s : State) (start stop : BlockHeight)
    (bs : list Block) (e : option error) :
  (BlockRange start stop s).1 = Returns (bs, e) →
  match e with
  | Some _ => bs = []
  | None =>
    length bs = N.to_nat (add64 (sub64 stop start) 1)
    ∧ start ≤ stop ≤ height s
  end.
Proof.
  unfold BlockRange. under_lock m.
  change (height (set_mu s m)) with (height s).
  destruct (bool_decide (stop < start) || bool_decide (height s < stop))
    eqn:Hrange.
  - intros [= <- <-]. done.
  - apply orb_false_elim in Hrange
      as [Hle%bool_decide_eq_false Hin%bool_decide_eq_false].
    unfold make. destruct (decide (_ < 2 ^ 63)); [|done]. method_steps.
    destruct (slice _ _ _) as [ids|]; [|done]. method_steps.
    intros Hloop%BlockRange_loop_result.
    destruct e; [done|]. rewrite length_replicate in Hloop. lia.
Qed.

(** The loop of [BlockRange] stops at an identifier that the block map
    does not hold. *)
Lemma BlockRange_loop_missing (s : State) (ids : list BlockID) :
  ∀ (i : nat) (blocks : list Block),
    (i + length ids ≤ length blocks)%nat →
    Exists (λ id, blockMap s !! id = None) ids →
    (BlockRange_loop ids i blocks s).1
    = if DEBUG
      then Panics "blockMap is missing a block whose ID is in the currentPath"
      else Returns ([], Some (errors_New "State is inconsistent")).
Proof.
  induction ids as [|id ids IH]; intros i blocks Hlen Hmissing.
  - inversion Hmissing.
  - cbn [BlockRange_loop length] in *. rewrite bind_read.
    destruct (blockMap s !! id) as [node|] eqn:Hid;
      [|by destruct DEBUG].
    inversion Hmissing as [? ? Hhere|? ? Hlater]; subst; [congruence|].
    rewrite decide_True by lia.
    apply IH; [rewrite length_insert; lia|done].
Qed.

(** X5. On a current path that is not empty, for a range within it of
    which one height holds an identifier unknown to the block map,
    [BlockRange] panics when [DEBUG] is set and otherwise returns the
    error of an inconsistent state, with no block. *)
Theorem BlockRange_missing_block (s : State) (start stop i : BlockHeight)
    (id : BlockID) :
  currentPath s ≠ [] →
  N.of_nat (length (currentPath s)) < 2 ^ 63 →
  start ≤ i ≤ stop →
  stop ≤ height s →
  currentPath s !! N.to_nat i = Some id →
  blockMap s !! id = None →
  (BlockRange start stop s).1
  = if DEBUG
    then Panics "blockMap is missing a block whose ID is in the currentPath"
    else Returns ([], Some (errors_New "State is inconsistent")).
Proof.
  intros Hne Hfits Hi Hstop Hid Hmissing.
  pose proof (height_nonempty s Hne Hfits) as Hheight.
  assert (length (currentPath s) ≠ 0)%nat by by destruct (currentPath s).
  assert (2 ^ 63 < two64) by done.
  unfold BlockRange. under_lock m.
  change (height (set_mu s m)) with (height s).
  rewrite !bool_decide_eq_false_2 by lia. cbn [orb].
  assert (sub64 stop start = stop - start) as ->.
  { unfold sub64. rewrite Z.mod_small; lia. }
  assert (add64 (stop - start) 1 = stop - start + 1) as ->.
  { unfold add64. rewrite N.mod_small; lia. }
  assert (add64 stop 1 = stop + 1) as ->.
  { unfold add64. rewrite N.mod_small; lia. }
  unfold make. rewrite decide_True by lia. method_steps.
  change (currentPath (set_mu s m)) with (currentPath s).
  unfold slice. rewrite decide_True by lia. method_steps.
  apply BlockRange_loop_missing.
  - rewrite length_replicate, length_take, length_drop. lia.
  - apply Exists_exists. exists id. split; [|done].
    apply list_elem_of_In, list_elem_of_lookup. exists (N.to_nat (i - start)).
    rewrite lookup_take_lt by lia. rewrite lookup_drop.
    by replace (N.to_nat start + N.to_nat (i - start))%nat with (N.to_nat i)
      by lia.
Qed.

End consensus_further_properties.

Section consensus_composition.
Context `{Types}.

(** X6. Whatever the state, [BlockAtHeight] at the current height returns
    the block that [CurrentBlock] returns, with [exists] true, and panics
    exactly when [CurrentBlock] panics. *)
Theorem BlockAtHeight_of_Height (s : State) :
  (BlockAtHeight (height s) s).1 = (b ← (CurrentBlock s).1; mret (b, true)).
Proof.
  unfold BlockAtHeight, CurrentBlock. rewrite !locked_value.
  destruct (RLock "state BlockAtHeight" _) as [c1 m1].
  destruct (RLock "state CurrentBlock" _) as [c2 m2]. cbn [snd].
  method_steps. unfold call. cbn [fst].
  unfold blockAtHeight, currentBlockNode, currentBlockID.
  change (height (set_mu s m1)) with (height s).
  change (height (set_mu s m2)) with (height s).
  change (currentPath (set_mu s m1)) with (currentPath s).
  change (currentPath (set_mu s m2)) with (currentPath s).
  change (blockMap (set_mu s m1)) with (blockMap s).
  change (blockMap (set_mu s m2)) with (blockMap s).
  rewrite bool_decide_eq_true_2 by lia.
  destruct (index (currentPath s) (height s)) as [id|]; [|done]. cbn.
  by destruct (blockMap s !! id).
Qed.

(** X8. In a consistent state the current block is the block of the last
    identifier of the current path: [CurrentBlock] and [CurrentTarget]
    return the block and the target of its node without a panic, [Height]
    returns the height that the node records, which [HeightOfBlock] returns
    for that identifier, and the path is one longer than that height. *)
Theorem current_block_consistent (s : State) :
  consistent s →
  ∃ id node,
    list.last (currentPath s) = Some id
    ∧ blockMap s !! id = Some node
    ∧ ID (block node) = id
    ∧ (CurrentBlock s).1 = Returns (block node)
    ∧ (CurrentTarget s).1 = Returns (target node)
    ∧ (Height s).1 = Returns (node_height node)
    ∧ (HeightOfBlock id s).1 = Returns (node_height node, true)
    ∧ N.of_nat (length (currentPath s)) = node_height node + 1.
Proof.
  intros Hs.
  destruct (consistent_lookup s (height s) Hs) as (id & n & Hid & Hn & Hidn & Hh);
    [lia|].
  pose proof Hs as [Hne Hfits _ _].
  pose proof (height_nonempty s Hne Hfits) as Hheight.
  assert (length (currentPath s) ≠ 0)%nat by by destruct (currentPath s).
  exists id, n. split_and!; try done.
  - rewrite last_lookup, <- Hid. f_equal. lia.
  - unfold CurrentBlock. under_lock m.
    unfold currentBlockNode, currentBlockID, index.
    change (height (set_mu s m)) with (height s).
    change (currentPath (set_mu s m)) with (currentPath s).
    rewrite Hid. cbn. by rewrite Hn.
  - unfold CurrentTarget. under_lock m.
    unfold currentBlockNode, currentBlockID, index.
    change (height (set_mu s m)) with (height s).
    change (currentPath (set_mu s m)) with (currentPath s).
    rewrite Hid. cbn. by rewrite Hn.
  - unfold Height. under_lock m. unfold read. cbn [fst].
    change (height (set_mu s m)) with (height s). by rewrite Hh.
  - unfold HeightOfBlock. under_lock m. cbn. by rewrite Hn.
  - lia.
Qed.

(** On a current path of known blocks [BlockRange] returns the blocks of
    the nodes of its range. *)
Lemma BlockRange_of_nodes (s : State) (start stop : BlockHeight)
    (nodes : list blockNode) :
  currentPath s ≠ [] →
  N.of_nat (length (currentPath s)) < 2 ^ 63 →
  Forall2 (λ id n, blockMap s !! id = Some n) (currentPath s) nodes →
  start ≤ stop →
  stop ≤ height s →
  (BlockRange start stop s).1
  = Returns (block <$> take (N.to_nat (stop + 1 - start))
                         (drop (N.to_nat start) nodes), None).
Proof.
  intros Hne Hfits Hnodes Hle Hstop.
  pose proof (height_nonempty s Hne Hfits) as Hheight.
  assert (length (currentPath s) ≠ 0)%nat by by destruct (currentPath s).
  assert (2 ^ 63 < two64) by done.
  unfold BlockRange. under_lock m.
  change (height (set_mu s m)) with (height s).
  rewrite !bool_decide_eq_false_2 by lia. cbn [orb].
  assert (sub64 stop start = stop - start) as ->.
  { unfold sub64. rewrite Z.mod_small; lia. }
  assert (add64 (stop - start) 1 = stop - start + 1) as ->.
  { unfold add64. rewrite N.mod_small; lia. }
  assert (add64 stop 1 = stop + 1) as ->.
  { unfold add64. rewrite N.mod_small; lia. }
  unfold make. rewrite decide_True by lia. method_steps.
  change (currentPath (set_mu s m)) with (currentPath s).
  unfold slice. rewrite decide_True by lia. method_steps. cbn.
  set (k := N.to_nat (stop + 1 - start)).
  assert (Forall2 (λ id n, blockMap (set_mu s m) !! id = Some n)
            (take k (drop (N.to_nat start) (currentPath s)))
            (take k (drop (N.to_nat start) nodes)))
    as Hsub by by apply Forall2_take, Forall2_drop.
  assert (length (take k (drop (N.to_nat start) (currentPath s))) = k) as Hk.
  { rewrite length_take, length_drop. lia. }
  rewrite (BlockRange_loop_known _ _ _ _ _ Hsub)
    by (rewrite ?length_replicate; lia).
  cbn [fst].
  rewrite (drop_ge (replicate _ _)) by (rewrite length_replicate; lia).
  by rewrite take_0, app_nil_r, app_nil_l.
Qed.

(** X9. In a consistent state adjoining ranges add up: for
    [a <= b < c <= Height], the blocks of [BlockRange a b] followed by
    those of [BlockRange (b + 1) c] are the blocks of [BlockRange a c]. *)
Theorem BlockRange_adjoining (s : State) (a b c : BlockHeight) :
  consistent s →
  a ≤ b →
  b < c →
  c ≤ height s →
  ∃ lower upper,
    (BlockRange a b s).1 = Returns (lower, None)
    ∧ (BlockRange (b + 1) c s).1 = Returns (upper, None)
    ∧ (BlockRange a c s).1 = Returns (lower ++ upper, None).
Proof.
  intros [Hne Hfits Hchain _] Hab Hbc Hc.
  destruct (chain_nodes s _ _ Hchain) as [nodes Hnodes].
  eexists _, _. split_and!.
  - apply (BlockRange_of_nodes s a b nodes); [done..|lia].
  - apply (BlockRange_of_nodes s (b + 1) c nodes); [done..|lia|done].
  - rewrite (BlockRange_of_nodes s a c nodes) by (done || lia).
    rewrite <- fmap_app. do 3 f_equal.
    replace (N.to_nat (c + 1 - a))
      with (N.to_nat (b + 1 - a) + N.to_nat (c + 1 - (b + 1)))%nat by lia.
    rewrite <- take_take_drop, drop_drop. do 3 f_equal. lia.
Qed.

(** X10. On a state whose current path is empty the height wraps around:
    [Height] returns 2^64 - 1, and [BlockAtHeight] at any height,
    [CurrentBlock] and [CurrentTarget] panic on indexing the path. *)
Theorem empty_path_wraps (s : State) (h : BlockHeight) :
  currentPath s = [] →
  h < two64 →
  (Height s).1 = Returns (two64 - 1)
  ∧ (BlockAtHeight h s).1 = Panics "index out of range"
  ∧ (CurrentBlock s).1 = Panics "index out of range"
  ∧ (CurrentTarget s).1 = Panics "index out of range".
Proof.
  intros Hempty Hh.
  assert (height s = two64 - 1) as Hheight
    by (unfold height; by rewrite Hempty).
  split_and!.
  - unfold Height. under_lock m. unfold read. cbn [fst].
    change (height (set_mu s m)) with (height s). by rewrite Hheight.
  - unfold BlockAtHeight. under_lock m. unfold call. cbn [fst].
    unfold blockAtHeight.
    change (height (set_mu s m)) with (height s).
    change (currentPath (set_mu s m)) with (currentPath s).
    rewrite bool_decide_eq_true_2 by (rewrite Hheight; unfold two64 in *; lia).
    unfold index. by rewrite Hempty.
  - unfold CurrentBlock. under_lock m.
    unfold currentBlockNode, currentBlockID, index.
    change (currentPath (set_mu s m)) with (currentPath s).
    by rewrite Hempty.
  - unfold CurrentTarget. under_lock m.
    unfold currentBlockNode, currentBlockID, index.
    change (currentPath (set_mu s m)) with (currentPath s).
    by rewrite Hempty.
Qed.

(** A method that takes the lock and defers its release, under the name
    and with the counter of the taking, and whose body leaves the state as
    it is, leaves the state as it is. *)
Lemma locked_released {A : Type} (name : string) (body : Method A)
    (s : State) :
  (∀ m, RUnlock name (RLock name m).1 (RLock name m).2 = m) →
  leaves eq body →
  ((counter ← mu_RLock name; defer (mu_RUnlock name counter) body) s).2 = s.
Proof.
  intros Hbalanced Hbody.
  unfold mbind, Method_bind, mu_RLock, defer, mu_RUnlock.
  specialize (Hbalanced (mu s)).
  destruct (RLock name (mu s)) as [counter m]. cbn in *.
  specialize (Hbody (set_mu s m)).
  destruct (body (set_mu s m)) as [r s1]. cbn in *. subst s1. cbn.
  rewrite Hbalanced. by destruct s.
Qed.

(** X11. With a lock whose [RUnlock] undoes its [RLock], every query
    returns the state exactly as it found it, the lock included, whether
    it returns a value, an error or panics. *)
Theorem queries_release_lock `{!Validation} (s : State) :
  (∀ name m, RUnlock name (RLock name m).1 (RLock name m).2 = m) →
  (∀ h, (BlockAtHeight h s).2 = s)
  ∧ (∀ id, (Block_ id s).2 = s)
  ∧ (∀ start stop, (BlockRange start stop s).2 = s)
  ∧ (∀ id, (BlocksSince id s).2 = s)
  ∧ (∀ id, (BlockOutputDiffs id s).2 = s)
  ∧ (∀ bid, (HeightOfBlock bid s).2 = s)
  ∧ (∀ id, (SiacoinOutput_ id s).2 = s)
  ∧ (∀ id, (SiafundOutput_ id s).2 = s)
  ∧ (∀ id, (FileContract_ id s).2 = s)
  ∧ (SortedUtxoSet s).2 = s
  ∧ (CurrentBlock s).2 = s
  ∧ (CurrentTarget s).2 = s
  ∧ (Height s).2 = s
  ∧ (∀ t, (ValidTransactionComponents t s).2 = s).
Proof.
  intros Hbalanced.
  split_and!; intros; (apply locked_released; [by intros|]).
  - (* BlockAtHeight *)
    leaves_steps (@eq State).
  - (* Block *)
    leaves_steps (@eq State). destruct (_ !! id); leaves_steps (@eq State).
  - (* BlockRange *)
    leaves_steps (@eq State). destruct (_ || _); leaves_steps (@eq State).
  - (* BlocksSince *)
    leaves_steps (@eq State). destruct (_ !! id); leaves_steps (@eq State).
  - (* BlockOutputDiffs *)
    leaves_steps (@eq State).
    destruct (_ !! id) as [node|]; [destruct (negb _)|];
      leaves_steps (@eq State).
  - (* HeightOfBlock *)
    leaves_steps (@eq State). destruct (_ !! bid); leaves_steps (@eq State).
  - (* SiacoinOutput *)
    leaves_steps (@eq State).
  - (* SiafundOutput *)
    leaves_steps (@eq State).
  - (* FileContract *)
    leaves_steps (@eq State).
  - (* SortedUtxoSet *)
    leaves_steps (@eq State).
  - (* CurrentBlock *)
    leaves_steps (@eq State).
  - (* CurrentTarget *)
    leaves_steps (@eq State).
  - (* Height *)
    leaves_steps (@eq State).
  - (* ValidTransactionComponents *)
    leaves_branch; [leaves_steps (@eq State)|].
    leaves_branch; leaves_steps (@eq State).
    leaves_branch; leaves_steps (@eq State).
    leaves_branch; leaves_steps (@eq State).
Qed.

End consensus_composition.

(** ** Further properties of package contractor *)

Section renewal_properties.

(** [resolveID] returns only where the chain of renewals ends. *)
Lemma resolveID_returns_ends (c : Contractor) (fuel : nat) :
  ∀ id r : FileContractID, resolveID fuel c id = Some r → ends c id.
Proof.
  induction fuel as [|fuel IH]; intros id r Hr; cbn in Hr;
    destruct (renewedIDs c !! id) as [newID|] eqn:Hid;
    try done; try (by apply ends_here).
  eapply ends_next; [done|]. by eapply IH.
Qed.

(** A chain of renewals that ends has no identifier on a circle. *)
Lemma ends_no_circle (c : Contractor) (id : FileContractID) :
  ends c id → ¬ tc (renewal c) id id.
Proof.
  induction 1 as [id Hid|id newID Hid _ IH]; intros Hcircle.
  - inversion Hcircle as [? ? Hstep|? ? ? Hstep _]; subst;
      unfold renewal in Hstep; congruence.
  - apply IH.
    inversion Hcircle as [? ? Hstep|? y ? Hstep Hback]; subst;
      pose proof Hstep as Hentry; unfold renewal in Hentry.
    + assert (id = newID) as <- by congruence. by apply tc_once.
    + assert (y = newID) as -> by congruence. by eapply tc_r.
Qed.

Lemma ends_along (c : Contractor) (id id' : FileContractID) :
  rtc (renewal c) id id' → ends c id → ends c id'.
Proof.
  induction 1 as [|id x id' Hstep _ IH]; [done|].
  intros Hends. apply IH. unfold renewal in Hstep.
  destruct Hends; congruence.
Qed.

(** What [resolveID] returns for an identifier it returns for each of its
    renewals, with the same bound. *)
Lemma resolveID_along (c : Contractor) (id id' : FileContractID) :
  rtc (renewal c) id id' →
  ∀ (fuel : nat) (r : FileContractID),
    resolveID fuel c id = Some r → resolveID fuel c id' = Some r.
Proof.
  induction 1 as [|id x id' Hstep _ IH]; [done|].
  intros fuel r Hr. unfold renewal in Hstep.
  destruct fuel as [|fuel]; cbn in Hr; rewrite Hstep in Hr; [done|].
  apply IH. eapply resolveID_more_fuel; [done|lia].
Qed.

Lemma resolveID_reaches (c : Contractor) (fuel : nat) :
  ∀ id r : FileContractID,
    resolveID fuel c id = Some r → rtc (renewal c) id r.
Proof.
  induction fuel as [|fuel IH]; intros id r Hr; cbn in Hr;
    destruct (renewedIDs c !! id) as [newID|] eqn:Hid; try done.
  - by injection Hr as <-.
  - eapply rtc_l; [done|]. by apply IH.
  - by injection Hr as <-.
Qed.

(** X12. When following the renewals from [id] leads to an identifier that
    lies on a circle of renewals, [resolveID id] does not return, however
    many iterations it is given. *)
Theorem resolveID_circle (c : Contractor) (id id' : FileContractID) :
  rtc (renewal c) id id' →
  tc (renewal c) id' id' →
  ∀ fuel, resolveID fuel c id = None.
Proof.
  intros Hreach Hcircle fuel.
  destruct (resolveID fuel c id) as [r|] eqn:Hr; [|done].
  exfalso. eapply ends_no_circle; [|done].
  eapply ends_along; [done|]. by eapply resolveID_returns_ends.
Qed.

(** X13. What [resolveID] returns for [id] is reached from [id] by
    following renewals, and it is what [resolveID] returns for every
    identifier on the way: a contract and its renewals resolve alike. *)
Theorem renewals_resolve_alike (c : Contractor) (fuel : nat)
    (id r : FileContractID) :
  resolveID fuel c id = Some r →
  rtc (renewal c) id r
  ∧ ∀ id', rtc (renewal c) id id' → resolveID fuel c id' = Some r.
Proof.
  intros Hr. split; [by eapply resolveID_reaches|].
  intros id' Hreach. by eapply resolveID_along.
Qed.

(** X14. The answer of [GoodForUpload] for a contract is the utility
    recorded for the identifier it resolves to, false when none is
    recorded, whatever is recorded for the contract itself; each of its
    renewals gets the same answer. *)
Theorem GoodForUpload_of_renewals (c : Contractor) (fuel : nat)
    (contractUtilities : gmap FileContractID contractUtility)
    (id : FileContractID) (good : bool) :
  GoodForUpload_ fuel contractUtilities c id = Some good →
  (∃ r, resolveID fuel c id = Some r
        ∧ renewedIDs c !! r = None
        ∧ good = match contractUtilities !! r with
                 | Some utility => GoodForUpload utility
                 | None => false
                 end)
  ∧ ∀ id', rtc (renewal c) id id' →
           GoodForUpload_ fuel contractUtilities c id' = Some good.
Proof.
  unfold GoodForUpload_. intros Hgood.
  destruct (resolveID fuel c id) as [r|] eqn:Hr; [|done].
  cbn in Hgood. injection Hgood as <-. split.
  - exists r. split_and!; [done|by eapply resolveID_not_renewed|].
    by destruct (contractUtilities !! r).
  - intros id' Hreach.
    by rewrite (resolveID_along _ _ _ Hreach _ _ Hr).
Qed.

(** The contractor without the renewal of one identifier. *)
Lemma resolveID_without (c : Contractor) (id : FileContractID) (fuel : nat) :
  ∀ x r : FileContractID,
    resolveID fuel c x = Some r →
    ¬ rtc (renewal c) x id →
    resolveID fuel
      {| blockHeight := blockHeight c; currentPeriod := currentPeriod c;
         lastChange := lastChange c;
         renewedIDs := delete id (renewedIDs c) |} x
    = Some r.
Proof.
  induction fuel as [|fuel IH]; intros x r Hr Hapart; cbn in *;
    assert (x ≠ id) by (intros ->; by apply Hapart);
    rewrite lookup_delete_ne by done;
    destruct (renewedIDs c !! x) as [y|] eqn:Hx; try done.
  apply IH; [done|]. intros Hreach. apply Hapart. by eapply rtc_l.
Qed.

Lemma resolveID_with (c : Contractor) (id : FileContractID) (fuel : nat) :
  ∀ x r : FileContractID,
    resolveID fuel
      {| blockHeight := blockHeight c; currentPeriod := currentPeriod c;
         lastChange := lastChange c;
         renewedIDs := delete id (renewedIDs c) |} x
    = Some r →
    r ≠ id →
    resolveID fuel c x = Some r.
Proof.
  induction fuel as [|fuel IH]; intros x r Hr Hne; cbn in *;
    destruct (decide (x = id)) as [->|Hx].
  - rewrite lookup_delete_eq in Hr. congruence.
  - rewrite lookup_delete_ne in Hr by done.
    by destruct (renewedIDs c !! x).
  - rewrite lookup_delete_eq in Hr. congruence.
  - rewrite lookup_delete_ne in Hr by done.
    destruct (renewedIDs c !! x); [|done]. by apply IH.
Qed.

Lemma resolveID_within (n : nat) :
  ∀ (c : Contractor) (fuel : nat) (id r : FileContractID),
    (size (renewedIDs c) ≤ n)%nat →
    resolveID fuel c id = Some r →
    resolveID n c id = Some r.
Proof.
  induction n as [|n IH]; intros c fuel id r Hsize Hr.
  - assert (renewedIDs c = ∅) as Hempty by (apply map_size_empty_inv; lia).
    destruct fuel; cbn in *; by rewrite Hempty, lookup_empty in *.
  - pose proof (resolveID_returns_ends _ _ _ _ Hr) as Hends.
    pose proof (resolveID_not_renewed _ _ _ _ Hr) as Hend.
    destruct (renewedIDs c !! id) as [x|] eqn:Hid.
    + destruct fuel as [|fuel]; cbn in Hr |- *; rewrite Hid in Hr |- *;
        [done|].
      apply (resolveID_with c id); [|congruence].
      apply (IH _ fuel).
      * cbn. rewrite map_size_delete, Hid. lia.
      * apply resolveID_without; [done|].
        intros Hback. eapply ends_no_circle; [exact Hends|].
        by eapply tc_rtc_r; [apply tc_once|].
    + destruct fuel; cbn in Hr |- *; by rewrite Hid in Hr |- *.
Qed.

(** X17. When [resolveID] returns, it does so within as many iterations as
    [renewedIDs] has entries. *)
Theorem resolveID_bound (c : Contractor) (fuel : nat) (id r : FileContractID) :
  resolveID fuel c id = Some r →
  resolveID (size (renewedIDs c)) c id = Some r.
Proof. intros Hr. by eapply resolveID_within. Qed.

End renewal_properties.

Section new_properties.
Context {CS FS W TP HDB : Type}.
Context `{!consensusSet CS} `{!Persistence} `{!Host FS}.

(** [newContractor] returns a contractor or an error, not both and not
    neither. *)
Lemma newContractor_either (cs : CS) :
  is_Some (contractor (newContractor cs)) ↔ err (newContractor cs) = None.
Proof.
  unfold newContractor.
  destruct (load _) as [[e|] c]; [destruct (os_IsNotExist e)|]; cbn;
    try (split; [by intros [? ?]|done]);
    destruct (ConsensusSetSubscribe cs c _) as [[[[|msg]|] c1] cs1]; cbn;
    try destruct (ConsensusSetSubscribe cs1 _ _) as [[[e2|] c2] cs2]; cbn;
    try destruct (save _); cbn;
    (split; [by intros [? ?]|done]) || (split; [done|by eexists]).
Qed.


(** X16. What [New] returns, whatever the host and the dependencies do.
    With a nil consensus set, wallet or transaction pool it returns the
    error of the first of them that is nil, in that order, without
    touching the file system or reaching [newContractor]. It returns a
    contractor or an error and never both; a contractor only when all
    three checked dependencies were given and [newContractor] was reached
    and returned it; and when making the directory fails, that error, with
    nothing else attempted on the file system. *)
Theorem New_outcome (cs : option CS) (wallet : option W)
    (tpool : option TP) (hdb : option HDB) (persistDir : string) (fs : FS) :
  let r := New cs wallet tpool hdb persistDir fs in
  (cs = None ∨ wallet = None ∨ tpool = None →
   r = mkNewResult None
         (Some (if cs is None then errNilCS
                else if wallet is None then errNilWallet
                else errNilTpool))
         fs None)
  ∧ (is_Some (new_contractor r) ↔ new_err r = None)
  ∧ (∀ c, new_contractor r = Some c →
          ∃ cs', cs = Some cs' ∧ is_Some wallet ∧ is_Some tpool
                 ∧ new_call r = Some (newContractor cs')
                 ∧ contractor (newContractor cs') = Some c)
  ∧ (∀ cs' e fs',
       cs = Some cs' → is_Some wallet → is_Some tpool →
       os_MkdirAll persistDir fs = (Some e, fs') →
       r = mkNewResult None (Some e) fs' None).
Proof.
  unfold New.
  destruct cs as [cs'|], wallet as [w|], tpool as [tp|]; cbn;
    try (split_and!;
         [done
         |split; [by intros [? ?]|done]
         |done
         |intros ? ? ? ? Hw Htp; first [done|by destruct Hw|by destruct Htp]]).
  split; [by intros [|[|]]|].
  destruct (os_MkdirAll persistDir fs) as [[e1|] fs1]; cbn.
  { split_and!; [split; [by intros [? ?]|done]|done|].
    by intros ? ? ? [= <-] _ _ [= <- <-]. }
  destruct (proto_NewContractSet persistDir fs1) as [[e2|] fs2]; cbn.
  { split_and!; [split; [by intros [? ?]|done]|done|done]. }
  destruct (persist_NewFileLogger _ fs2) as [[e3|] fs3]; cbn.
  { split_and!; [split; [by intros [? ?]|done]|done|done]. }
  split_and!; [apply newContractor_either| |done].
  intros c Hc. exists cs'. split_and!; by eauto.
Qed.

End new_properties.

(** ** The further properties on the demonstration states *)

Lemma sortedUscoSet_order_witness :
  @sortedUscoSet_ranging (demoTypes false) [9; 5] (reorganised false)
  = @sortedUscoSet_ranging (demoTypes false) [5; 9] (reorganised false).
Proof.
  apply (@sortedUscoSet_order (demoTypes false) [9; 5] [5; 9]).
  apply perm_swap.
Defined.

Lemma BlockRange_all_or_nothing_witness :
  (@BlockRange (demoTypes false) 2 4 (reorganised false)).1
  = Returns ([102; 203; 204], None)
  ∧ length [102; 203; 204] = N.to_nat (add64 (sub64 4 2) 1)
  ∧ 2 ≤ 4 ≤ @height (demoTypes false) (reorganised false).
Proof.
  assert ((@BlockRange (demoTypes false) 2 4 (reorganised false)).1
          = Returns ([102; 203; 204], None)) as Hreturns by by vm_compute.
  split; [exact Hreturns|].
  exact (@BlockRange_all_or_nothing (demoTypes false) (reorganised false)
           2 4 [102; 203; 204] None Hreturns).
Defined.

Lemma BlockRange_missing_block_witness :
  (@BlockRange (demoTypes false) 0 1 (tornState false)).1
  = Returns ([], Some (errors_New "State is inconsistent"))
  ∧ (@BlockRange (demoTypes true) 0 1 (tornState true)).1
    = Panics "blockMap is missing a block whose ID is in the currentPath".
Proof.
  split.
  - apply (@BlockRange_missing_block (demoTypes false) (tornState false)
             0 1 1 101); by vm_compute.
  - apply (@BlockRange_missing_block (demoTypes true) (tornState true)
             0 1 1 101); by vm_compute.
Defined.

Lemma current_block_consistent_witness :
  ∃ id node,
    list.last (currentPath (reorganised false)) = Some id
    ∧ blockMap (reorganised false) !! id = Some node
    ∧ @ID (demoTypes false) (block node) = id
    ∧ (@CurrentBlock (demoTypes false) (reorganised false)).1
      = Returns (block node)
    ∧ (@CurrentTarget (demoTypes false) (reorganised false)).1
      = Returns (target node)
    ∧ (@Height (demoTypes false) (reorganised false)).1
      = Returns (node_height node)
    ∧ (@HeightOfBlock (demoTypes false) id (reorganised false)).1
      = Returns (node_height node, true)
    ∧ N.of_nat (length (currentPath (reorganised false)))
      = node_height node + 1.
Proof.
  exact (@current_block_consistent (demoTypes false) (reorganised false)
           (reorganised_consistent false)).
Defined.

Lemma BlockRange_adjoining_witness :
  ∃ lower upper,
    (@BlockRange (demoTypes false) 1 3 (reorganised false)).1
    = Returns (lower, None)
    ∧ (@BlockRange (demoTypes false) (3 + 1) 6 (reorganised false)).1
      = Returns (upper, None)
    ∧ (@BlockRange (demoTypes false) 1 6 (reorganised false)).1
      = Returns (lower ++ upper, None).
Proof.
  apply (@BlockRange_adjoining (demoTypes false) (reorganised false) 1 3 6);
    [apply reorganised_consistent|by vm_compute..].
Defined.

Lemma empty_path_wraps_witness :
  (@Height (demoTypes false) (emptyState false)).1
  = Returns 18446744073709551615
  ∧ (@BlockAtHeight (demoTypes false) 0 (emptyState false)).1
    = Panics "index out of range"
  ∧ (@CurrentBlock (demoTypes false) (emptyState false)).1
    = Panics "index out of range"
  ∧ (@CurrentTarget (demoTypes false) (emptyState false)).1
    = Panics "index out of range".
Proof.
  apply (@empty_path_wraps (demoTypes false) (emptyState false) 0);
    [done|by vm_compute].
Defined.

Lemma queries_release_lock_witness :
  (∀ h, (@BlockAtHeight (demoTypes false) h (reorganised false)).2
        = reorganised false)
  ∧ (∀ start stop,
       (@BlockRange (demoTypes false) start stop (tornState false)).2
       = tornState false)
  ∧ (@CurrentBlock (demoTypes false) (emptyState false)).2
    = emptyState false.
Proof.
  split_and!.
  - apply (@queries_release_lock (demoTypes false) (demoValidation false)
             (reorganised false)). by intros.
  - apply (@queries_release_lock (demoTypes false) (demoValidation false)
             (tornState false)). by intros.
  - apply (@queries_release_lock (demoTypes false) (demoValidation false)
             (emptyState false)). by intros.
Defined.

Lemma renewedInCircle_circle : tc (renewal renewedInCircle) 1 1.
Proof. apply (tc_l _ 1 2 1); [done|]. by apply tc_once. Defined.

Lemma resolveID_circle_witness :
  resolveID 0 renewedInCircle 1 = None
  ∧ resolveID 1000 renewedInCircle 1 = None.
Proof.
  split;
    apply (resolveID_circle renewedInCircle 1 1 (rtc_refl _ 1)
             renewedInCircle_circle).
Defined.

Lemma renewals_resolve_alike_witness :
  rtc (renewal renewedTwice) 1 3
  ∧ ∀ id', rtc (renewal renewedTwice) 1 id' →
           resolveID 2 renewedTwice id' = Some 3.
Proof. exact (renewals_resolve_alike renewedTwice 2 1 3 eq_refl). Defined.

Lemma GoodForUpload_of_renewals_witness :
  (∃ r, resolveID 2 renewedTwice 1 = Some r
        ∧ renewedIDs renewedTwice !! r = None
        ∧ true = match demoUtilities !! r with
                 | Some utility => GoodForUpload utility
                 | None => false
                 end)
  ∧ ∀ id', rtc (renewal renewedTwice) 1 id' →
           GoodForUpload_ 2 demoUtilities renewedTwice id' = Some true.
Proof.
  exact (GoodForUpload_of_renewals renewedTwice 2 demoUtilities 1 true
           eq_refl).
Defined.

Lemma resolveID_bound_witness :
  resolveID (size (renewedIDs renewedTwice)) renewedTwice 1 = Some 3.
Proof. exact (resolveID_bound renewedTwice 7 1 3 eq_refl). Defined.

Section consensus_bounds.
Context `{Types}.

(** X18. On a current path that is not empty, [blockAtHeight] does not
    panic on indexing the path: above the path it returns [exists] false,
    within it the block of the identifier's node with [exists] true, and
    it panics only where the block map does not hold the identifier. *)
Theorem blockAtHeight_bounds (s : State) (h : BlockHeight) :
  currentPath s ≠ [] →
  N.of_nat (length (currentPath s)) < 2 ^ 63 →
  blockAtHeight s h
  = match currentPath s !! N.to_nat h with
    | None => Returns (Block_zero, false)
    | Some id =>
      match blockMap s !! id with
      | Some node => Returns (block node, true)
      | None => Panics "nil pointer dereference"
      end
    end.
Proof.
  intros Hne Hfits.
  pose proof (height_nonempty s Hne Hfits) as Hheight.
  assert (length (currentPath s) ≠ 0)%nat by by destruct (currentPath s).
  unfold blockAtHeight, index.
  destruct (currentPath s !! N.to_nat h) as [id|] eqn:Hid.
  - apply lookup_lt_Some in Hid.
    rewrite bool_decide_eq_true_2 by lia. cbn.
    by destruct (blockMap s !! id).
  - apply lookup_ge_None in Hid.
    by rewrite bool_decide_eq_false_2 by lia.
Qed.

End consensus_bounds.

Lemma blockAtHeight_bounds_witness :
  @blockAtHeight (demoTypes false) (tornState false) 0 = Returns (100, true)
  ∧ @blockAtHeight (demoTypes false) (tornState false) 1
    = Panics "nil pointer dereference"
  ∧ @blockAtHeight (demoTypes false) (tornState false) 2
    = Returns (0, false).
Proof.
  split_and!.
  - apply (@blockAtHeight_bounds (demoTypes false) (tornState false) 0);
      by vm_compute.
  - apply (@blockAtHeight_bounds (demoTypes false) (tornState false) 1);
      by vm_compute.
  - apply (@blockAtHeight_bounds (demoTypes false) (tornState false) 2);
      by vm_compute.
Defined.


(** [New] without a consensus set leaves the file system alone; with every
    dependency and a consensus set that knows the persisted checkpoint it
    returns the contractor of [newContractor]. *)
Lemma New_outcome_witness :
  @New _ _ unit unit unit demoConsensusSet demoPersistence demoHost
    None (Some ()) (Some ()) None "renter" []
  = mkNewResult None (Some errNilCS) [] None
  ∧ ∃ cs',
      Some [42] = Some cs'
      ∧ is_Some (Some ()) ∧ is_Some (Some ())
      ∧ new_call (@New _ _ unit unit unit demoConsensusSet demoPersistence
                    demoHost (Some [42]) (Some ()) (Some ()) None "renter" [])
        = Some (@newContractor _ demoConsensusSet demoPersistence cs')
      ∧ contractor (@newContractor _ demoConsensusSet demoPersistence cs')
        = Some {| blockHeight := 9; currentPeriod := 0; lastChange := 42;
                  renewedIDs := ∅ |}.
Proof.
  split.
  - destruct (@New_outcome _ _ unit unit unit demoConsensusSet
                demoPersistence demoHost None (Some ()) (Some ()) None
                "renter" []) as (Hnil & _).
    apply Hnil. by left.
  - destruct (@New_outcome _ _ unit unit unit demoConsensusSet
                demoPersistence demoHost (Some [42]) (Some ()) (Some ()) None
                "renter" []) as (_ & _ & Hreached & _).
    apply Hreached. reflexivity.
Defined.
